(** * ElementSorter: keeping the children of a container in sorted order

    A shallow embedding of [src/elementsorter.js] (the version that carries
    its own [parseCondition], [_compare] and [_compareField]) together with
    the parts of the JavaScript host it calls: strings, the relational
    operators, [Array.prototype.sort]/[splice] and [Node.insertBefore]. *)

From Stdlib Require Import ZArith Lia Ascii String.
From stdpp Require Import base list sorting.

Local Set Warnings "-register-all".
Local Open Scope string_scope.
Local Open Scope list_scope.

(** ** The host: strings *)

Module JSString.

(** Strings are sequences of code units; the embedding covers the code
    units below 256.  [isWhiteSpace] is what [String.prototype.trim]
    strips in that range: TAB, LF, VT, FF, CR, SP and NBSP. *)
Definition isWhiteSpace (c : ascii) : bool :=
  let n := nat_of_ascii c in
  (n =? 9)%nat || (n =? 10)%nat || (n =? 11)%nat || (n =? 12)%nat
  || (n =? 13)%nat || (n =? 32)%nat || (n =? 160)%nat.

Fixpoint trimStart (s : string) : string :=
  match s with
  | EmptyString => EmptyString
  | String c r => if isWhiteSpace c then trimStart r else s
  end.

Fixpoint trimEnd (s : string) : string :=
  match s with
  | EmptyString => EmptyString
  | String c r =>
      match trimEnd r with
      | EmptyString => if isWhiteSpace c then EmptyString else String c EmptyString
      | r' => String c r'
      end
  end.

Definition trim (s : string) : string := trimEnd (trimStart s).

(** [toLowerCase] on one code unit: A-Z and the Latin-1 capitals
    (U+00C0-U+00DE except the multiplication sign) move up by 32. *)
Definition lowerChar (c : ascii) : ascii :=
  let n := nat_of_ascii c in
  if ((65 <=? n)%nat && (n <=? 90)%nat)
     || ((192 <=? n)%nat && (n <=? 222)%nat && negb (n =? 215)%nat)
  then ascii_of_nat (n + 32) else c.

Fixpoint toLowerCase (s : string) : string :=
  match s with
  | EmptyString => EmptyString
  | String c r => String (lowerChar c) (toLowerCase r)
  end.

(** [s.substring(start, end)]: both indices are clamped to [0, length]
    and swapped when out of order. *)
Definition substring (s : string) (start end_ : Z) : string :=
  let len := Z.of_nat (String.length s) in
  let a := Z.min (Z.max start 0) len in
  let b := Z.min (Z.max end_ 0) len in
  let lo := Z.min a b in
  let hi := Z.max a b in
  String.substring (Z.to_nat lo) (Z.to_nat (hi - lo)) s.

Definition endsWith (s suffix : string) : bool :=
  let ls := String.length s in
  let lx := String.length suffix in
  if (lx <=? ls)%nat
  then String.eqb (String.substring (ls - lx) lx s) suffix
  else false.

(** [s.split(sep)] for a one-character separator: the result is never
    empty, and the empty string splits into one empty piece. *)
Fixpoint split (sep : ascii) (s : string) : list string :=
  match s with
  | EmptyString => [EmptyString]
  | String c r =>
      if Ascii.eqb c sep then EmptyString :: split sep r
      else match split sep r with
           | [] => [String c EmptyString]
           | t :: ts => String c t :: ts
           end
  end.

End JSString.

(** ** The host: values and the relational operators *)

(** A number is NaN or an ordered value; the ordered values are taken
    to be the integers (indices, [parseInt] results, time stamps). *)
Inductive number : Type :=
| NaN
| Num (z : Z).

Definition number_lt (a b : number) : bool :=
  match a, b with
  | Num x, Num y => (x <? y)%Z
  | _, _ => false
  end.

(** Field values: the primitives the comparator is documented for, Date
    objects (by time value) and plain objects (by own data properties,
    in insertion order). *)
Inductive value : Type :=
| VUndefined
| VNull
| VBoolean (b : bool)
| VNumber (n : number)
| VString (s : string)
| VDate (t : number)
| VObject (props : list (string * value)).

(** An item object is a plain object: what [itemObjectMapFunc] builds
    with [return {...}] on each call. *)
Definition itemObject : Type := list (string * value).

(** [obj[name]] on own properties. *)
Fixpoint getProperty (props : list (string * value)) (name : string) : value :=
  match props with
  | [] => VUndefined
  | (k, v) :: rest => if String.eqb k name then v else getProperty rest name
  end.

(** [obj[name] = v]: an existing property keeps its place, a new one is
    added last. *)
Fixpoint setProperty (props : list (string * value)) (name : string) (v : value)
  : list (string * value) :=
  match props with
  | [] => [(name, v)]
  | (k, w) :: rest =>
      if String.eqb k name then (k, v) :: rest
      else (k, w) :: setProperty rest name v
  end.

Fixpoint resolvePath (v : value) (names : list string) : value :=
  match names with
  | [] => v
  | name :: rest =>
      match v with
      | VObject props => resolvePath (getProperty props name) rest
      | _ => VUndefined
      end
  end.

(** Modelled from the spec: [ObjectUtils.getPropertyValueByNamePath] of
    the package jsobjectutils is not among the sources.  The path is
    dot-separated and resolved by nested property traversal; a segment
    that cannot be resolved yields [undefined], not an error. *)
Definition getPropertyValueByNamePath (obj : itemObject) (namePath : string) : value :=
  resolvePath (VObject obj) (JSString.split "." namePath).

(** What a call completes with: a value, or a thrown exception. *)
Inductive exn : Type :=
| MapFuncError (payload : value)
| NotFoundError
| TypeError.

Inductive completion (A : Type) : Type :=
| Normal (a : A)
| Throw (e : exn).
Arguments Normal {A} a.
Arguments Throw {A} e.

(** ** The host: arrays *)

(** [a[i]] for an integer [i]: out of range reads give [undefined]. *)
Definition array_get {A : Type} (a : list A) (i : Z) : option A :=
  if (i <? 0)%Z then None else a !! Z.to_nat i.

(** [a.splice(start, 0, x)]: a negative [start] counts from the end,
    and the start is clamped to the array. *)
Definition splice_insert {A : Type} (a : list A) (start : Z) (x : A) : list A :=
  let len := Z.of_nat (length a) in
  let from := if (start <? 0)%Z then Z.max (len + start) 0 else Z.min start len in
  take (Z.to_nat from) a ++ x :: drop (Z.to_nat from) a.

Definition push {A : Type} (a : list A) (x : A) : list A := a ++ [x].

Section ArraySort.
Context {A : Type}.
Variable comparefn : A -> A -> Z.

(** [x] goes in front of the first element it does not follow. *)
Fixpoint sort_insert (x : A) (sorted : list A) : list A :=
  match sorted with
  | [] => [x]
  | y :: rest =>
      if (0 <? comparefn x y)%Z then y :: sort_insert x rest
      else x :: y :: rest
  end.

(** [a.sort(comparefn)].  The host's sort is stable (ECMAScript 2019);
    it is embedded as the stable insertion sort. *)
Fixpoint Array_sort (a : list A) : list A :=
  match a with
  | [] => []
  | x :: rest => sort_insert x (Array_sort rest)
  end.

End ArraySort.

(** ** The host: the container *)

(** Element handles are node identities. *)
Definition handle : Type := nat.

(** A container is known by the order of its children; [calls] records
    the [insertBefore] calls it has received, oldest first. *)
Record container : Type := mkContainer {
  children : list handle;
  calls : list (handle * option handle)
}.

Definition remove_child (node : handle) (nodes : list handle) : list handle :=
  filter (fun h => h <> node) nodes.

Fixpoint insert_at_child (node ref : handle) (nodes : list handle) : list handle :=
  match nodes with
  | [] => [node]
  | h :: rest =>
      if decide (h = ref) then node :: h :: rest
      else h :: insert_at_child node ref rest
  end.

(** The child order after [parent.insertBefore(node, ref)] succeeds: a
    node is first taken out of the place it has, [null] appends, and a
    node inserted before itself stays where it is. *)
Definition place (node : handle) (ref : option handle) (nodes : list handle)
  : list handle :=
  match ref with
  | None => remove_child node nodes ++ [node]
  | Some r =>
      if decide (node = r) then nodes
      else insert_at_child node r (remove_child node nodes)
  end.

(** ** The engine's effects *)

(** The two objects the engine mutates: the container and the caller's
    array [lastElements]. *)
Record world : Type := mkWorld {
  dom : container;
  lastElements : list handle
}.

(** A computation reads and writes the world and may throw; what was
    written before a throw stays written. *)
Definition M (A : Type) : Type := world -> completion A * world.

Definition ret {A : Type} (a : A) : M A := fun w => (Normal a, w).

Definition bind {A B : Type} (m : M A) (k : A -> M B) : M B :=
  fun w =>
    match m w with
    | (Normal a, w') => k a w'
    | (Throw e, w') => (Throw e, w')
    end.

Definition throw {A : Type} (e : exn) : M A := fun w => (Throw e, w).

Definition lift {A : Type} (c : completion A) : M A := fun w => (c, w).

Declare Scope js_scope.
Delimit Scope js_scope with js.
Notation "'let*' x ':=' m 'in' k" := (bind m (fun x => k))
  (at level 10, x name, m at level 100, k at level 200) : js_scope.
Notation "'call' m 'in' k" := (bind m (fun _ => k))
  (at level 10, m at level 100, k at level 200) : js_scope.

(** [container.insertBefore(node, ref)]; a reference that is not a child
    of the container is a NotFoundError and changes nothing. *)
Definition insertBefore (node : handle) (ref : option handle) : M unit :=
  fun w =>
    let c := dom w in
    let ok := match ref with
              | None => true
              | Some r => bool_decide (r ∈ children c)
              end in
    if ok
    then (Normal tt,
          mkWorld (mkContainer (place node ref (children c))
                               (calls c ++ [(node, ref)]))
                  (lastElements w))
    else (Throw NotFoundError, w).

Definition read_lastElements : M (list handle) :=
  fun w => (Normal (lastElements w), w).

Definition write_lastElements (a : list handle) : M unit :=
  fun w => (Normal tt, mkWorld (dom w) a).

(** [a.map(f)] with a callback that may throw. *)
Fixpoint mapM {A B : Type} (f : A -> M B) (a : list A) : M (list B) :=
  match a with
  | [] => ret []
  | x :: rest =>
      (let* y := f x in let* ys := mapM f rest in ret (y :: ys))%js
  end.

(** ** Sort conditions *)

(** Modelled from the spec: the class [Condition] of [./condition] is
    not among the sources.  It is the specification's order field, a
    path and a direction, under the names [_compare] reads and in the
    order [parseCondition] passes them to the constructor. *)
Record Condition : Type := mkCondition {
  fieldName : string;
  isAscendingOrder : bool
}.

(** One round of the loop over the segments of [parseCondition]. *)
Definition parseSegment (segment : string) : Condition :=
  let segment := JSString.trim segment in
  if JSString.endsWith (JSString.toLowerCase segment) "desc" then
    let fieldName := JSString.substring segment 0 (Z.of_nat (String.length segment) - 4) in
    let fieldName := JSString.trim fieldName in
    mkCondition fieldName false
  else
    mkCondition segment true.

Fixpoint parseSegments (segments : list string) (conditions : list Condition)
  : list Condition :=
  match segments with
  | [] => conditions
  | segment :: rest => parseSegments rest (push conditions (parseSegment segment))
  end.

Definition parseCondition (expression : string) : list Condition :=
  let conditions := [] in
  if String.eqb expression "" then conditions
  else parseSegments (JSString.split "," expression) conditions.

(** The tokens of an expression: its comma-separated pieces; the empty
    expression has none. *)
Definition tokens (expression : string) : list string :=
  if String.eqb expression "" then [] else JSString.split "," expression.

(** The number of times a character occurs in a string. *)
Fixpoint occurrences (c : ascii) (s : string) : nat :=
  match s with
  | EmptyString => 0
  | String d rest => (if Ascii.eqb d c then 1 else 0) + occurrences c rest
  end.

(** A condition in the textual form the comment of [parseCondition]
    shows: the field name, followed by [ DESC] when descending. *)
Definition formatCondition (c : Condition) : string :=
  if isAscendingOrder c then fieldName c else (fieldName c ++ " DESC")%string.

(** A list of conditions in that form, as in
    ['meta.flag, creationTime DESC, name']. *)
Definition formatConditions (conds : list Condition) : string :=
  String.concat ", " (map formatCondition conds).

(** The string is empty or starts with something else than white
    space. *)
Definition startsClean (s : string) : bool :=
  match s with
  | EmptyString => true
  | String c _ => negb (JSString.isWhiteSpace c)
  end.

(** A field name that can be written in an expression: not empty,
    without a comma, without white space at either end. *)
Definition plainName (n : string) : Prop :=
  n <> "" /\ occurrences "," n = 0 /\ startsClean n = true /\ JSString.trimEnd n = n.

(** A condition that can be written: a plain name which, when the
    condition is ascending, does not itself end in the marker. *)
Definition writable (c : Condition) : Prop :=
  plainName (fieldName c)
  /\ (isAscendingOrder c = true ->
      JSString.endsWith (JSString.toLowerCase (fieldName c)) "desc" = false).

(** ** The elements of the test suite *)

(** A host in which no string reads as a number; none of the examples
    below compares a string with a number. *)
Definition noNumericStrings : string -> number := fun _ => NaN.

Definition itemOf (id : Z) (type : string) (checked : bool) : itemObject :=
  [("id", VNumber (Num id)); ("type", VString type); ("checked", VBoolean checked)].

(** The six elements of [createItemElements] under the mapping function
    of the tests; any other handle makes it throw. *)
Definition testItemObjectMapFunc (element : handle) : completion itemObject :=
  match element with
  | 0 => Normal (itemOf 5 "foo" false)
  | 1 => Normal (itemOf 2 "foo" true)
  | 2 => Normal (itemOf 1 "foo" false)
  | 3 => Normal (itemOf 6 "bar" true)
  | 4 => Normal (itemOf 9 "bar" false)
  | 5 => Normal (itemOf 3 "bar" true)
  | _ => Throw (MapFuncError (VString "no such element"))
  end.

Definition emptyWorld : world := mkWorld (mkContainer [] []) [].

(** A container and an array that both hold [elements]. *)
Definition worldOf (elements : list handle) : world :=
  mkWorld (mkContainer elements []) elements.

(** Items whose field [v] is 2, NaN and 1. *)
Definition nanMap (element : handle) : completion itemObject :=
  match element with
  | 0 => Normal [("v", VNumber (Num 2))]
  | 1 => Normal [("v", VNumber NaN)]
  | _ => Normal [("v", VNumber (Num 1))]
  end.

(** Four elements whose field [v] is undefined, null, 1 and 2. *)
Definition nullOrderingMap (h : handle) : completion itemObject :=
  match h with
  | 0 => Normal [("v", VUndefined)]
  | 1 => Normal [("v", VNull)]
  | 2 => Normal [("v", VNumber (Num 1))]
  | 3 => Normal [("v", VNumber (Num 2))]
  | _ => Throw (MapFuncError VUndefined)
  end.

(** ** The engine *)

Section Engine.

(** The host's conversion of a string to a number (the grammar of
    numeric literals) is left open: every result below holds whatever
    it answers. *)
Variable StringToNumber : string -> number.

Definition ToPrimitive (v : value) : value :=
  match v with
  | VDate t => VNumber t
  | VObject _ => VString "[object Object]"
  | _ => v
  end.

Definition ToNumber (v : value) : number :=
  match v with
  | VUndefined => NaN
  | VNull => Num 0
  | VBoolean b => Num (if b then 1 else 0)
  | VNumber n => n
  | VString s => StringToNumber s
  | VDate t => t
  | VObject _ => NaN
  end.

(** [x < y]: two strings compare by code units, anything else as
    numbers, and a comparison with NaN is false. *)
Definition js_lt (x y : value) : bool :=
  match ToPrimitive x, ToPrimitive y with
  | VString a, VString b => String.ltb a b
  | px, py => number_lt (ToNumber px) (ToNumber py)
  end.

(** [x > y] is [y < x]. *)
Definition js_gt (x y : value) : bool := js_lt y x.

Definition is_undefined (v : value) : bool :=
  match v with VUndefined => true | _ => false end.

Definition is_null (v : value) : bool :=
  match v with VNull => true | _ => false end.

Definition _compareField (leftItemObject rightItemObject : itemObject)
  (namePath : string) : Z :=
  let leftValue := getPropertyValueByNamePath leftItemObject namePath in
  let rightValue := getPropertyValueByNamePath rightItemObject namePath in
  if is_undefined leftValue && is_undefined rightValue then 0
  else if is_undefined leftValue then -1
  else if is_undefined rightValue then 1
  else if is_null leftValue && is_null rightValue then 0
  else if is_null leftValue then -1
  else if is_null rightValue then 1
  else if js_lt leftValue rightValue then -1
  else if js_gt leftValue rightValue then 1
  else 0.

(** The loop over the conditions leaves at the first field that tells
    the two items apart. *)
Fixpoint _compare (leftItemObject rightItemObject : itemObject)
  (conditions : list Condition) : Z :=
  match conditions with
  | [] => 0
  | c :: rest =>
      let fieldResult := _compareField leftItemObject rightItemObject (fieldName c) in
      if (fieldResult =? 0)%Z then _compare leftItemObject rightItemObject rest
      else if isAscendingOrder c then fieldResult
      else (- fieldResult)%Z
  end.

(** The scan of [_findPosition] from index [idx] on, over the items
    from that index. *)
Fixpoint findFrom (idx : Z) (items : list itemObject) (addItemObject : itemObject)
  (conditions : list Condition) : Z :=
  match items with
  | [] => -1
  | item :: rest =>
      let result := _compare addItemObject item conditions in
      if (result <? 0)%Z then idx
      else findFrom (idx + 1) rest addItemObject conditions
  end.

Definition _findPosition (lastItemObjects : list itemObject)
  (addItemObject : itemObject) (conditions : list Condition) : Z :=
  let position := (-1)%Z in
  if (length conditions =? 0)%nat then position
  else findFrom 0 lastItemObjects addItemObject conditions.

(** The caller's mapping function; it may throw. *)
Variable itemObjectMapFunc : handle -> completion itemObject.

(** The loop of [insertElement] over [addElements]; [lastItemObjects]
    is the local array of item objects. *)
Fixpoint insertEach (addElements : list handle) (lastItemObjects : list itemObject)
  (conditions : list Condition) : M unit :=
  match addElements with
  | [] => ret tt
  | addElement :: rest =>
      (let* addItemObject := lift (itemObjectMapFunc addElement) in
       let position := _findPosition lastItemObjects addItemObject conditions in
       if (position =? -1)%Z then
         let lastItemObjects := push lastItemObjects addItemObject in
         call insertBefore addElement None in
         let* elements := read_lastElements in
         call write_lastElements (push elements addElement) in
         insertEach rest lastItemObjects conditions
       else
         let lastItemObjects := splice_insert lastItemObjects position addItemObject in
         let* elements := read_lastElements in
         call insertBefore addElement (array_get elements position) in
         let* elements := read_lastElements in
         call write_lastElements (splice_insert elements position addElement) in
         insertEach rest lastItemObjects conditions)%js
  end.

Definition insertElement (addElements : list handle) (conditions : list Condition)
  : M unit :=
  (let* elements := read_lastElements in
   let* lastItemObjects := mapM (fun element => lift (itemObjectMapFunc element)) elements in
   insertEach addElements lastItemObjects conditions)%js.

(** [lastElements.map((element, idx) => ...)] of [sortElements], from
    index [idx] on. *)
Fixpoint tagFrom (idx : Z) (elements : list handle) : M (list itemObject) :=
  match elements with
  | [] => ret []
  | element :: rest =>
      (let* itemObject := lift (itemObjectMapFunc element) in
       let itemObject := setProperty itemObject "__index" (VNumber (Num idx)) in
       let* others := tagFrom (idx + 1) rest in
       ret (itemObject :: others))%js
  end.

(** [lastElements[targetElementIdx]]: only an index reads an element. *)
Definition element_at (elements : list handle) (targetElementIdx : value)
  : option handle :=
  match targetElementIdx with
  | VNumber (Num i) => array_get elements i
  | _ => None
  end.

(** The backward pass: the rounds [round], [round - 1], ..., 1. *)
Fixpoint moveRounds (round : nat) (targetElementIndexies : list value)
  (elements : list handle) (lastElement : option handle) : M unit :=
  match round with
  | O => ret tt
  | S next =>
      match targetElementIndexies !! round with
      | None => throw TypeError
      | Some targetElementIdx =>
          match element_at elements targetElementIdx with
          | None => throw TypeError
          | Some targetElement =>
              (call insertBefore targetElement lastElement in
               moveRounds next targetElementIndexies elements (Some targetElement))%js
          end
      end
  end.

Definition sortElements (conditions : list Condition) : M unit :=
  (let* elements := read_lastElements in
   let* itemObjects := tagFrom 0 elements in
   let itemObjects :=
     Array_sort (fun leftItemObject rightItemObject =>
                   _compare leftItemObject rightItemObject conditions)
                itemObjects in
   let targetElementIndexies := map (fun item => getProperty item "__index") itemObjects in
   let lastElement := None in
   moveRounds (length targetElementIndexies - 1) targetElementIndexies elements lastElement)%js.

(** ** Words of the specification *)

(** The runtime types the specification supports in a compared field. *)
Inductive kind : Type := KNumber | KString | KBoolean | KDate.

Definition kind_eqb (j k : kind) : bool :=
  match j, k with
  | KNumber, KNumber | KString, KString | KBoolean, KBoolean | KDate, KDate => true
  | _, _ => false
  end.

Definition kind_of (v : value) : option kind :=
  match v with
  | VNumber _ => Some KNumber
  | VString _ => Some KString
  | VBoolean _ => Some KBoolean
  | VDate _ => Some KDate
  | _ => None
  end.

Definition nullish (v : value) : bool := is_undefined v || is_null v.

(** Two resolved values "of the same supported comparable runtime type
    or null/undefined", as the specification words the precondition. *)
Definition same_supported_type (x y : value) : bool :=
  nullish x || nullish y
  || match kind_of x, kind_of y with
     | Some j, Some k => kind_eqb j k
     | _, _ => false
     end.

(** A value the relational operators order: not NaN, and not a Date
    whose time value is NaN. *)
Definition ordered (v : value) : bool :=
  match v with
  | VNumber NaN | VDate NaN => false
  | _ => true
  end.

Definition comparable (x y : value) : bool :=
  same_supported_type x y && ordered x && ordered y.

(** ** Words of the statements and proofs *)

(** The chain of tests of [_compareField], on the two resolved values. *)
Definition orderValues (leftValue rightValue : value) : Z :=
  if is_undefined leftValue && is_undefined rightValue then 0
  else if is_undefined leftValue then -1
  else if is_undefined rightValue then 1
  else if is_null leftValue && is_null rightValue then 0
  else if is_null leftValue then -1
  else if is_null rightValue then 1
  else if js_lt leftValue rightValue then -1
  else if js_gt leftValue rightValue then 1
  else 0.

Definition typed (k : kind) (v : value) : bool :=
  nullish v
  || (match kind_of v with Some j => kind_eqb j k | None => false end && ordered v).

(** Every item holds, at [path], a value of kind [k] that is ordered,
    or null or undefined. *)
Definition column_typed (path : string) (items : list itemObject) : Prop :=
  exists k, forall o, o ∈ items -> typed k (getPropertyValueByNamePath o path) = true.

Definition columns_typed (conds : list Condition) (items : list itemObject) : Prop :=
  Forall (fun c => column_typed (fieldName c) items) conds.

Definition transitive_on (conds : list Condition) (items : list itemObject) : Prop :=
  forall a b c, a ∈ items -> b ∈ items -> c ∈ items ->
    (_compare a b conds <= 0)%Z -> (_compare b c conds <= 0)%Z ->
    (_compare a c conds <= 0)%Z.

(** The first index whose item the new item is below, or the length. *)
Fixpoint first_below (x : itemObject) (conds : list Condition)
  (items : list itemObject) : nat :=
  match items with
  | [] => 0
  | e :: rest =>
      if (_compare x e conds <? 0)%Z then 0 else S (first_below x conds rest)
  end.

Definition insertion_index (items : list itemObject) (x : itemObject)
  (conds : list Condition) : nat :=
  match conds with
  | [] => length items
  | _ => first_below x conds items
  end.

Definition maps_to (h : handle) (o : itemObject) : Prop :=
  itemObjectMapFunc h = Normal o.

(** The world after [addElement] went in at index [i]. *)
Definition inserted_at (w : world) (addElement : handle) (i : nat) : world :=
  let ref := lastElements w !! i in
  mkWorld (mkContainer (place addElement ref (children (dom w)))
                       (calls (dom w) ++ [(addElement, ref)]))
          (take i (lastElements w) ++ addElement :: drop i (lastElements w)).

Definition no_later (conds : list Condition) (a b : itemObject) : Prop :=
  (_compare a b conds <= 0)%Z.

(** No two neighbours of the array, mapped to item objects, compare
    positive. *)
Definition mirror_sorted (conds : list Condition) (elements : list handle) : Prop :=
  forall i a b oa ob,
    elements !! i = Some a -> elements !! S i = Some b ->
    maps_to a oa -> maps_to b ob -> (_compare oa ob conds <= 0)%Z.

(** The worlds a sequence of [insertElement] calls with the same
    conditions reaches from an empty array. *)
Inductive reached (conds : list Condition) : world -> Prop :=
| reached_empty w : lastElements w = [] -> reached conds w
| reached_insert w addElements :
    reached conds w -> reached conds (insertElement addElements conds w).2.

Definition mirror_ok (conds : list Condition) (w : world) : Prop :=
  exists items, Forall2 maps_to (lastElements w) items /\ Sorted (no_later conds) items.

(** The first name of a path. *)
Definition head_name (path : string) : string :=
  match JSString.split "." path with
  | [] => ""
  | name :: _ => name
  end.

(** No condition reads the property [__index]. *)
Definition index_free (conds : list Condition) : Prop :=
  Forall (fun c => head_name (fieldName c) <> "__index") conds.

Definition tag (idx : Z) (o : itemObject) : itemObject :=
  setProperty o "__index" (VNumber (Num idx)).

(** The elements of an array with their indices, from [idx] on. *)
Fixpoint indexFrom {A : Type} (idx : Z) (a : list A) : list (Z * A) :=
  match a with
  | [] => []
  | x :: rest => (idx, x) :: indexFrom (idx + 1) rest
  end.

(** [a] stands somewhere before [b] in the list. *)
Definition precedes {A : Type} (a b : A) (l : list A) : Prop :=
  exists l1 l2 l3, l = l1 ++ a :: l2 ++ b :: l3.

(** The calls of the rounds [round], ..., 1 over the target elements. *)
Fixpoint moves_of (round : nat) (targets : list handle) (lastElement : option handle)
  : list (handle * option handle) :=
  match round with
  | O => []
  | S next =>
      match targets !! round with
      | None => []
      | Some t => (t, lastElement) :: moves_of next targets (Some t)
      end
  end.

(** The child order after a list of successful [insertBefore] calls. *)
Definition replay (nodes : list handle) (moves : list (handle * option handle))
  : list handle :=
  foldl (fun nodes m => place m.1 m.2 nodes) nodes moves.

(** The array [targetElementIndexies] of [sortElements], from the item
    objects of the elements. *)
Definition targetIndexies (conds : list Condition) (items : list itemObject)
  : list value :=
  map (fun item => getProperty item "__index")
      (Array_sort (fun l r => _compare l r conds)
                  (map (fun p => tag p.1 p.2) (indexFrom 0 items))).

(** The elements the rounds take, by position in the target order. *)
Definition targetElements (conds : list Condition) (elements : list handle)
  (items : list itemObject) : list handle :=
  omap (element_at elements) (targetIndexies conds items).

(** The reference: the handles, stably sorted by their item objects
    under the comparator. *)
Definition reference_order (conds : list Condition) (elements : list handle)
  (items : list itemObject) : list handle :=
  map fst (Array_sort (fun p q => _compare p.2 q.2 conds) (zip elements items)).

(** The elements with index and item object, sorted as [sortElements]
    sorts the tagged item objects. *)
Definition sorted_rows (conds : list Condition) (elements : list handle)
  (items : list itemObject) : list (Z * (handle * itemObject)) :=
  Array_sort (fun p q => _compare (tag p.1 p.2.2) (tag q.1 q.2.2) conds)
             (indexFrom 0 (zip elements items)).

(** An executable reading of [mirror_sorted], on the item objects. *)
Fixpoint sortedb (conds : list Condition) (items : list itemObject) : bool :=
  match items with
  | a :: (b :: _) as rest => (_compare a b conds <=? 0)%Z && sortedb conds rest
  | _ => true
  end.

(** The children after [sortElements] on a container and an array that
    both hold [elements]. *)
Definition resorted (conds : list Condition) (elements : list handle) : list handle :=
  children (dom (sortElements conds (worldOf elements)).2).

(** The children after [insertElement] of [addElements] into an empty
    container with an empty array. *)
Definition inserted (conds : list Condition) (addElements : list handle) : list handle :=
  children (dom (insertElement addElements conds emptyWorld).2).

(** ** Further words *)

(** The conditions with every direction reversed. *)
Definition reverseConditions (conds : list Condition) : list Condition :=
  map (fun c => mkCondition (fieldName c) (negb (isAscendingOrder c))) conds.

(** What the loop of [insertElement] does to a list, one element at a
    time: the element goes in front of the first one it is below. *)
Fixpoint insert_after {A : Type} (c : A -> A -> Z) (x : A) (l : list A) : list A :=
  match l with
  | [] => [x]
  | e :: rest =>
      if (c x e <? 0)%Z then x :: e :: rest else e :: insert_after c x rest
  end.

(** * Facts *)

Section StringOrder.

Lemma ascii_compare_refl (c : ascii) : Ascii.compare c c = Eq.
Proof. unfold Ascii.compare. apply N.compare_refl. Qed.

Lemma ascii_compare_lt_trans (a b c : ascii) :
  Ascii.compare a b = Lt -> Ascii.compare b c = Lt -> Ascii.compare a c = Lt.
Proof.
  unfold Ascii.compare. rewrite !N.compare_lt_iff. lia.
Qed.

Lemma string_compare_refl (s : string) : String.compare s s = Eq.
Proof.
  induction s as [|c s IH]; simpl; [reflexivity|].
  now rewrite ascii_compare_refl.
Qed.

Lemma string_compare_lt_trans (a b c : string) :
  String.compare a b = Lt -> String.compare b c = Lt -> String.compare a c = Lt.
Proof.
  revert b c. induction a as [|x a IH]; intros [|y b] [|z c]; simpl; try congruence.
  destruct (Ascii.compare x y) eqn:Hxy; try discriminate.
  - apply Ascii.compare_eq_iff in Hxy. subst y.
    destruct (Ascii.compare x z); try congruence. apply IH.
  - intros _. destruct (Ascii.compare y z) eqn:Hyz; try discriminate.
    + apply Ascii.compare_eq_iff in Hyz. subst z. now rewrite Hxy.
    + intros _. now rewrite (ascii_compare_lt_trans x y z).
Qed.

Lemma string_ltb_irrefl (s : string) : String.ltb s s = false.
Proof. unfold String.ltb. now rewrite string_compare_refl. Qed.

Lemma string_ltb_asym (a b : string) :
  String.ltb a b = true -> String.ltb b a = false.
Proof.
  unfold String.ltb. rewrite (String.compare_antisym b a).
  destruct (String.compare a b); simpl; congruence.
Qed.

Lemma string_ltb_trans (a b c : string) :
  String.ltb a b = true -> String.ltb b c = true -> String.ltb a c = true.
Proof.
  unfold String.ltb.
  destruct (String.compare a b) eqn:Hab; try discriminate.
  destruct (String.compare b c) eqn:Hbc; try discriminate.
  now rewrite (string_compare_lt_trans a b c).
Qed.

Lemma string_ltb_total (a b : string) :
  String.ltb a b = false -> String.ltb b a = false -> a = b.
Proof.
  unfold String.ltb. rewrite (String.compare_antisym b a).
  destruct (String.compare a b) eqn:Hab; simpl; try discriminate.
  intros _ _. now apply String.compare_eq_iff.
Qed.

End StringOrder.

(** ** The comparator *)

Lemma number_lt_asym (a b : number) : number_lt a b = true -> number_lt b a = false.
Proof. destruct a, b; simpl; try congruence. lia. Qed.

Lemma js_lt_asym (x y : value) : js_lt x y = true -> js_lt y x = false.
Proof.
  unfold js_lt.
  destruct (ToPrimitive x) eqn:Hx, (ToPrimitive y) eqn:Hy;
    try apply number_lt_asym; apply string_ltb_asym.
Qed.

Lemma compareField_range (a b : itemObject) (path : string) :
  _compareField a b path = (-1)%Z \/ _compareField a b path = 0%Z
  \/ _compareField a b path = 1%Z.
Proof.
  unfold _compareField.
  repeat match goal with |- context [if ?c then _ else _] => destruct c end; auto.
Qed.

Lemma compareField_antisym (a b : itemObject) (path : string) :
  _compareField a b path = (- _compareField b a path)%Z.
Proof.
  unfold _compareField, js_gt.
  destruct (getPropertyValueByNamePath a path) as [| | | | | |] eqn:Ha;
  destruct (getPropertyValueByNamePath b path) as [| | | | | |] eqn:Hb; simpl; try reflexivity;
  match goal with
  | |- context [js_lt ?x ?y] =>
      destruct (js_lt x y) eqn:H1;
      [ rewrite (js_lt_asym _ _ H1) | destruct (js_lt y x) eqn:H2 ]; reflexivity
  end.
Qed.

Lemma compare_range (a b : itemObject) (conds : list Condition) :
  _compare a b conds = (-1)%Z \/ _compare a b conds = 0%Z \/ _compare a b conds = 1%Z.
Proof.
  induction conds as [|c conds IH]; simpl; [auto|].
  destruct (compareField_range a b (fieldName c)) as [H|[H|H]]; rewrite H; simpl; auto.
  all: destruct (isAscendingOrder c); auto.
Qed.

Lemma compare_antisym (a b : itemObject) (conds : list Condition) :
  _compare a b conds = (- _compare b a conds)%Z.
Proof.
  induction conds as [|c conds IH]; simpl; [reflexivity|].
  rewrite (compareField_antisym b a).
  destruct (compareField_range a b (fieldName c)) as [H|[H|H]]; rewrite H; simpl; auto.
  all: destruct (isAscendingOrder c); reflexivity.
Qed.

Lemma number_lt_trans (a b c : number) :
  number_lt a b = true -> number_lt b c = true -> number_lt a c = true.
Proof. destruct a, b, c; simpl; try congruence. lia. Qed.

Lemma compareField_orderValues (a b : itemObject) (path : string) :
  _compareField a b path
  = orderValues (getPropertyValueByNamePath a path) (getPropertyValueByNamePath b path).
Proof. reflexivity. Qed.

Lemma orderValues_trans (x y z : value) :
  comparable x y = true -> comparable y z = true ->
  (orderValues x y <= 0)%Z -> (orderValues y z <= 0)%Z -> (orderValues x z <= 0)%Z.
Proof.
  unfold comparable, same_supported_type, orderValues, js_gt, js_lt.
  destruct x as [| |bx|[|nx]|sx|[|tx]|ox], y as [| |by'|[|ny]|sy|[|ty]|oy],
    z as [| |bz|[|nz]|sz|[|tz]|oz]; simpl; try discriminate; try lia;
    intros _ _.
  - destruct bx, by', bz; simpl; lia.
  - destruct (nx <? ny)%Z eqn:E1, (ny <? nx)%Z eqn:E2, (ny <? nz)%Z eqn:E3,
      (nz <? ny)%Z eqn:E4, (nx <? nz)%Z eqn:E5, (nz <? nx)%Z eqn:E6; lia.
  - destruct (String.ltb sx sy) eqn:E1.
    + destruct (String.ltb sy sz) eqn:E3.
      * rewrite (string_ltb_trans _ _ _ E1 E3). lia.
      * destruct (String.ltb sz sy) eqn:E4; [lia|].
        rewrite <- (string_ltb_total _ _ E3 E4), E1. lia.
    + destruct (String.ltb sy sx) eqn:E2; [lia|].
      rewrite (string_ltb_total _ _ E1 E2). auto.
  - destruct (tx <? ty)%Z eqn:E1, (ty <? tx)%Z eqn:E2, (ty <? tz)%Z eqn:E3,
      (tz <? ty)%Z eqn:E4, (tx <? tz)%Z eqn:E5, (tz <? tx)%Z eqn:E6; lia.
Qed.

(** ** The comparator over a typed column *)

Lemma typed_comparable (k : kind) (x y : value) :
  typed k x = true -> typed k y = true -> comparable x y = true.
Proof.
  unfold typed, comparable, same_supported_type.
  destruct x as [| |bx|[|nx]|sx|[|tx]|ox], y as [| |by'|[|ny]|sy|[|ty]|oy], k;
    simpl; congruence.
Qed.

Lemma compare_trans (conds : list Condition) (a b c : itemObject) :
  Forall (fun cnd => forall x y z, x ∈ [a; b; c] -> y ∈ [a; b; c] -> z ∈ [a; b; c] ->
            (_compareField x y (fieldName cnd) <= 0)%Z ->
            (_compareField y z (fieldName cnd) <= 0)%Z ->
            (_compareField x z (fieldName cnd) <= 0)%Z) conds ->
  (_compare a b conds <= 0)%Z -> (_compare b c conds <= 0)%Z ->
  (_compare a c conds <= 0)%Z.
Proof.
  induction 1 as [|cnd conds Hf _ IH]; simpl; [lia|].
  assert (Ha : a ∈ [a; b; c]) by (rewrite !elem_of_cons; auto).
  assert (Hb : b ∈ [a; b; c]) by (rewrite !elem_of_cons; auto).
  assert (Hc : c ∈ [a; b; c]) by (rewrite !elem_of_cons; auto).
  pose proof (Hf a b c Ha Hb Hc) as T1.
  pose proof (Hf a c b Ha Hc Hb) as T2.
  pose proof (Hf b a c Hb Ha Hc) as T3.
  pose proof (Hf b c a Hb Hc Ha) as T4.
  pose proof (Hf c a b Hc Ha Hb) as T5.
  pose proof (Hf c b a Hc Hb Ha) as T6.
  rewrite (compareField_antisym b a), (compareField_antisym c b),
    (compareField_antisym c a) in *.
  destruct (compareField_range a b (fieldName cnd)) as [E1|[E1|E1]],
    (compareField_range b c (fieldName cnd)) as [E2|[E2|E2]],
    (compareField_range a c (fieldName cnd)) as [E3|[E3|E3]];
    rewrite E1, E2, E3 in *; simpl; destruct (isAscendingOrder cnd);
    try lia; apply IH.
Qed.

Lemma columns_typed_transitive (conds : list Condition) (items : list itemObject) :
  columns_typed conds items -> transitive_on conds items.
Proof.
  intros Hty a b c Ha Hb Hc. apply compare_trans.
  unfold columns_typed in Hty. rewrite Forall_forall in *.
  intros cnd Hin x y z Hx Hy Hz.
  destruct (Hty cnd Hin) as [k Hk].
  assert (Hmem : forall o, o ∈ [a; b; c] -> o ∈ items).
  { intros o. rewrite !elem_of_cons, elem_of_nil. intuition congruence. }
  rewrite !compareField_orderValues.
  apply orderValues_trans; eapply typed_comparable; apply Hk, Hmem; assumption.
Qed.

(** ** Where a new item goes *)

Lemma first_below_le x conds items : first_below x conds items <= length items.
Proof.
  induction items as [|e rest IH]; simpl; [lia|].
  destruct (_compare x e conds <? 0)%Z; lia.
Qed.

Lemma first_below_before x conds items j e :
  j < first_below x conds items -> items !! j = Some e ->
  (0 <= _compare x e conds)%Z.
Proof.
  revert j. induction items as [|e0 rest IH]; intros j; simpl; [lia|].
  destruct (_compare x e0 conds <? 0)%Z eqn:E; [lia|].
  destruct j as [|j]; simpl.
  - intros _ [= <-]. lia.
  - intros Hj. apply IH. lia.
Qed.

Lemma first_below_at x conds items :
  first_below x conds items < length items ->
  exists e, items !! first_below x conds items = Some e /\ (_compare x e conds < 0)%Z.
Proof.
  induction items as [|e0 rest IH]; simpl; [lia|].
  destruct (_compare x e0 conds <? 0)%Z eqn:E.
  - intros _. exists e0. split; [reflexivity|lia].
  - intros H. apply IH. lia.
Qed.

Lemma findFrom_first_below x conds items idx :
  findFrom idx items x conds
  = if decide (first_below x conds items = length items) then (-1)%Z
    else (idx + Z.of_nat (first_below x conds items))%Z.
Proof.
  revert idx. induction items as [|e rest IH]; intros idx; simpl; [reflexivity|].
  destruct (_compare x e conds <? 0)%Z.
  - simpl. lia.
  - rewrite IH. repeat case_decide; lia.
Qed.

Lemma findPosition_index items x conds :
  _findPosition items x conds
  = if decide (insertion_index items x conds = length items) then (-1)%Z
    else Z.of_nat (insertion_index items x conds).
Proof.
  unfold _findPosition, insertion_index. destruct conds as [|c conds]; simpl.
  - case_decide; [reflexivity|lia].
  - rewrite findFrom_first_below. case_decide; reflexivity.
Qed.

Lemma splice_insert_at {A : Type} (a : list A) (i : nat) (x : A) :
  i <= length a -> splice_insert a (Z.of_nat i) x = take i a ++ x :: drop i a.
Proof.
  intros Hi. unfold splice_insert.
  destruct (Z.of_nat i <? 0)%Z eqn:E; [lia|].
  replace (Z.to_nat (Z.min (Z.of_nat i) (Z.of_nat (length a)))) with i by lia.
  reflexivity.
Qed.

Lemma push_at {A : Type} (a : list A) (x : A) :
  push a x = take (length a) a ++ x :: drop (length a) a.
Proof. unfold push. now rewrite take_ge, drop_ge by lia. Qed.

Lemma mapM_items (elements : list handle) (items : list itemObject) (w : world) :
  Forall2 maps_to elements items ->
  mapM (fun element => lift (itemObjectMapFunc element)) elements w = (Normal items, w).
Proof.
  induction 1 as [|h o elements items Hh _ IH]; simpl; [reflexivity|].
  unfold bind at 1. unfold lift at 1. rewrite Hh.
  unfold bind at 1. rewrite IH. reflexivity.
Qed.

Lemma insertEach_throw a e rest items conds w :
  itemObjectMapFunc a = Throw e ->
  insertEach (a :: rest) items conds w = (Throw e, w).
Proof. intros H. simpl. unfold bind, lift. now rewrite H. Qed.

Lemma insertEach_cons a x rest items conds w :
  length (lastElements w) = length items ->
  maps_to a x ->
  insertEach (a :: rest) items conds w
  = let i := insertion_index items x conds in
    match lastElements w !! i with
    | Some r =>
        if bool_decide (r ∈ children (dom w))
        then insertEach rest (take i items ++ x :: drop i items) conds (inserted_at w a i)
        else (Throw NotFoundError, w)
    | None => insertEach rest (take i items ++ x :: drop i items) conds (inserted_at w a i)
    end.
Proof.
  intros Hlen Hx. simpl. unfold bind at 1, lift. rewrite Hx.
  pose proof (first_below_le x conds items) as Hle.
  assert (Hi : insertion_index items x conds <= length items).
  { unfold insertion_index. destruct conds; [lia|assumption]. }
  rewrite findPosition_index. cbv zeta. case_decide as Hend.
  - simpl. rewrite Hend, <- Hlen, lookup_ge_None_2 by lia.
    unfold bind, insertBefore, read_lastElements, write_lastElements, inserted_at. simpl.
    rewrite !push_at, lookup_ge_None_2 by lia. rewrite Hlen. reflexivity.
  - destruct (Z.of_nat (insertion_index items x conds) =? -1)%Z eqn:E; [lia|].
    unfold bind, insertBefore, read_lastElements, write_lastElements, inserted_at,
      array_get. simpl.
    destruct (Z.of_nat (insertion_index items x conds) <? 0)%Z eqn:E'; [lia|].
    rewrite Nat2Z.id.
    destruct (lastElements w !! insertion_index items x conds) as [r|] eqn:Hr.
    + destruct (bool_decide (r ∈ children (dom w))); [|reflexivity].
      simpl. rewrite !splice_insert_at by lia. reflexivity.
    + apply lookup_ge_None_1 in Hr. lia.
Qed.

(** ** Sortedness of the mirror *)

Lemma Sorted_insert_middle {A : Type} (R : A -> A -> Prop) (l1 l2 : list A) (x : A) :
  Sorted R (l1 ++ l2) ->
  (forall e, last l1 = Some e -> R e x) ->
  (forall e, head l2 = Some e -> R x e) ->
  Sorted R (l1 ++ x :: l2).
Proof.
  induction l1 as [|a l1 IH]; simpl; intros Hs Hl Hr.
  - constructor; [assumption|]. destruct l2; constructor. now apply Hr.
  - inversion Hs as [|? ? Hs' Hhd]; subst. constructor.
    + apply IH; [assumption| |assumption].
      intros e He. apply Hl. destruct l1; [discriminate|assumption].
    + destruct l1 as [|b l1]; simpl in *.
      * constructor. now apply Hl.
      * inversion Hhd; subst. now constructor.
Qed.

Lemma Sorted_lookup {A : Type} (R : A -> A -> Prop) (l : list A) i a b :
  Sorted R l -> l !! i = Some a -> l !! S i = Some b -> R a b.
Proof.
  intros Hs. revert i. induction Hs as [|x l Hs IH Hhd]; intros i; [discriminate|].
  destruct i as [|i]; simpl.
  - intros [= <-] Hb. destruct l; [discriminate|]. simpl in Hb.
    injection Hb as <-. now inversion Hhd.
  - apply IH.
Qed.

Lemma insertion_index_le items x conds :
  insertion_index items x conds <= length items.
Proof.
  unfold insertion_index. destruct conds; [lia|apply first_below_le].
Qed.

Lemma insertion_index_before items x conds j e :
  j < insertion_index items x conds -> items !! j = Some e ->
  (0 <= _compare x e conds)%Z.
Proof.
  unfold insertion_index. destruct conds as [|c conds]; [simpl; lia|].
  apply first_below_before.
Qed.

Lemma insertion_index_at items x conds :
  insertion_index items x conds < length items ->
  conds <> [] /\
  exists e, items !! insertion_index items x conds = Some e
            /\ (_compare x e conds < 0)%Z.
Proof.
  unfold insertion_index. destruct conds as [|c conds]; [lia|].
  intros H. split; [discriminate|]. now apply first_below_at.
Qed.

Lemma insertion_sorted (conds : list Condition) items x :
  Sorted (no_later conds) items ->
  Sorted (no_later conds)
    (take (insertion_index items x conds) items
       ++ x :: drop (insertion_index items x conds) items).
Proof.
  intros Hs. set (i := insertion_index items x conds).
  apply Sorted_insert_middle.
  - now rewrite take_drop.
  - intros e. rewrite last_lookup. intros He.
    assert (Hlt : pred (length (take i items)) < i).
    { apply lookup_lt_Some in He. rewrite length_take in *. lia. }
    rewrite lookup_take_lt in He by assumption.
    unfold no_later. rewrite compare_antisym.
    pose proof (insertion_index_before items x conds _ e Hlt He). lia.
  - intros e. rewrite head_lookup, lookup_drop, Nat.add_0_r. intros He.
    destruct (insertion_index_at items x conds) as [_ (e' & He' & Hlt)].
    { now apply lookup_lt_Some in He. }
    unfold no_later. fold i in He'. rewrite He in He'. injection He' as <-. lia.
Qed.

Lemma maps_to_inserted (elements : list handle) items a x i :
  Forall2 maps_to elements items -> maps_to a x ->
  Forall2 maps_to (take i elements ++ a :: drop i elements)
                  (take i items ++ x :: drop i items).
Proof.
  intros H Hx. apply Forall2_app; [now apply Forall2_take|].
  constructor; [assumption|now apply Forall2_drop].
Qed.

(** An invariant [Q] of the item objects that insertion at the
    insertion index keeps holds of the array after the loop, however
    the loop ends. *)
Lemma insertEach_invariant (conds : list Condition)
  (Q : list itemObject -> Prop) :
  (forall items x, Q items ->
     Q (take (insertion_index items x conds) items
          ++ x :: drop (insertion_index items x conds) items)) ->
  forall adds items w,
    Forall2 maps_to (lastElements w) items -> Q items ->
    exists items', Forall2 maps_to (lastElements (insertEach adds items conds w).2) items'
                   /\ Q items'.
Proof.
  intros HQ. induction adds as [|a adds IH]; intros items w Hm Hs.
  - simpl. now exists items.
  - destruct (itemObjectMapFunc a) as [x|e] eqn:Ha.
    + rewrite (insertEach_cons a x) by (assumption || now apply Forall2_length in Hm).
      cbv zeta.
      destruct (IH (take (insertion_index items x conds) items
                      ++ x :: drop (insertion_index items x conds) items)
                   (inserted_at w a (insertion_index items x conds)))
        as (items' & Hm' & Hs'); [now apply maps_to_inserted|now apply HQ|].
      destruct (lastElements w !! insertion_index items x conds);
        [|now exists items'].
      case_bool_decide; [now exists items'|]. simpl. now exists items.
    + rewrite (insertEach_throw a e) by assumption. simpl. now exists items.
Qed.

Lemma insertElement_mirror_ok (conds : list Condition) adds w :
  mirror_ok conds w -> mirror_ok conds (insertElement adds conds w).2.
Proof.
  intros (items & Hm & Hs). unfold insertElement, bind at 1, read_lastElements.
  unfold bind at 1. rewrite (mapM_items _ items) by assumption.
  apply insertEach_invariant; try assumption.
  intros. now apply insertion_sorted.
Qed.

Lemma mirror_ok_sorted (conds : list Condition) w :
  mirror_ok conds w ->
  Forall (fun h => exists o, maps_to h o) (lastElements w)
  /\ mirror_sorted conds (lastElements w).
Proof.
  intros (items & Hm & Hs). split.
  - apply Forall_forall. intros h Hh.
    apply list_elem_of_lookup in Hh as [i Hi].
    destruct (Forall2_lookup_l _ _ _ _ _ Hm Hi) as (o & _ & Ho). now exists o.
  - intros i a b oa ob Ha Hb Hoa Hob.
    destruct (Forall2_lookup_l _ _ _ _ _ Hm Ha) as (oa' & Ha' & Hoa').
    destruct (Forall2_lookup_l _ _ _ _ _ Hm Hb) as (ob' & Hb' & Hob').
    unfold maps_to in *.
    assert (oa' = oa) by congruence. assert (ob' = ob) by congruence. subst.
    exact (Sorted_lookup _ _ _ _ _ Hs Ha' Hb').
Qed.

(** C2: after any sequence of [insertElement] calls with the same
    conditions, started from an empty array, every handle of the array
    has an item object and no two neighbours, mapped to their item
    objects, compare positive. *)
Theorem insertElement_keeps_sorted (conds : list Condition) (w : world) :
  reached conds w ->
  Forall (fun h => exists o, maps_to h o) (lastElements w)
  /\ mirror_sorted conds (lastElements w).
Proof.
  intros Hr. apply mirror_ok_sorted.
  induction Hr as [w Hw|w adds _ IH].
  - exists []. rewrite Hw. split; constructor.
  - now apply insertElement_mirror_ok.
Qed.

(** ** One call after another *)

Lemma mapM_cases (elements : list handle) (w : world) :
  (exists items, Forall2 maps_to elements items)
  \/ (exists e, mapM (fun element => lift (itemObjectMapFunc element)) elements w
                = (Throw e, w)).
Proof.
  induction elements as [|h elements IH].
  - left. exists []. constructor.
  - simpl. unfold bind at 1. unfold lift at 1.
    destruct (itemObjectMapFunc h) as [o|e] eqn:Hh; [|right; now exists e].
    destruct IH as [(items & Hm)|(e & He)].
    + left. exists (o :: items). now constructor.
    + right. exists e. unfold bind at 1. now rewrite He.
Qed.

Lemma insertElement_unfold adds conds w items :
  Forall2 maps_to (lastElements w) items ->
  insertElement adds conds w = insertEach adds items conds w.
Proof.
  intros Hm. unfold insertElement, bind at 1, read_lastElements.
  unfold bind at 1. now rewrite (mapM_items _ items).
Qed.

Lemma insertEach_app conds adds1 adds2 :
  forall items w,
    Forall2 maps_to (lastElements w) items ->
    insertEach (adds1 ++ adds2) items conds w
    = match insertEach adds1 items conds w with
      | (Normal _, w1) => insertElement adds2 conds w1
      | (Throw e, w1) => (Throw e, w1)
      end.
Proof.
  induction adds1 as [|a adds1 IH]; intros items w Hm.
  - simpl. now rewrite (insertElement_unfold _ _ _ items).
  - rewrite <- app_comm_cons.
    destruct (itemObjectMapFunc a) as [x|e] eqn:Ha.
    + rewrite !(insertEach_cons a x) by (assumption || now apply Forall2_length in Hm).
      cbv zeta.
      pose proof (IH _ (inserted_at w a (insertion_index items x conds))
                    (maps_to_inserted _ _ a x (insertion_index items x conds) Hm Ha))
        as Hnext.
      destruct (lastElements w !! insertion_index items x conds); [|assumption].
      case_bool_decide; [assumption|reflexivity].
    + now rewrite !(insertEach_throw a e).
Qed.

Lemma insertElement_app conds adds1 adds2 w :
  insertElement (adds1 ++ adds2) conds w
  = match insertElement adds1 conds w with
    | (Normal _, w1) => insertElement adds2 conds w1
    | (Throw e, w1) => (Throw e, w1)
    end.
Proof.
  destruct (mapM_cases (lastElements w) w) as [(items & Hm)|(e & He)].
  - rewrite !(insertElement_unfold _ _ _ items) by assumption.
    now apply insertEach_app.
  - unfold insertElement, bind at 1, read_lastElements. unfold bind at 1.
    unfold bind at 1. unfold bind at 1. now rewrite He.
Qed.

Lemma insertElement_normal_mapped adds conds w w' :
  insertElement adds conds w = (Normal tt, w') ->
  exists items, Forall2 maps_to (lastElements w') items.
Proof.
  intros Hrun.
  destruct (mapM_cases (lastElements w) w) as [(items & Hm)|(e & He)].
  - rewrite (insertElement_unfold _ _ _ items) in Hrun by assumption.
    destruct (insertEach_invariant conds (fun _ => True) (fun _ _ _ => I)
                adds items w Hm I) as (items' & Hm' & _).
    rewrite Hrun in Hm'. now exists items'.
  - unfold insertElement, bind at 1, read_lastElements in Hrun.
    unfold bind at 1 in Hrun. rewrite He in Hrun. discriminate.
Qed.

Lemma insertElement_one conds w items a x :
  Forall2 maps_to (lastElements w) items -> maps_to a x ->
  (forall h, h ∈ lastElements w -> h ∈ children (dom w)) ->
  insertElement [a] conds w
  = (Normal tt, inserted_at w a (insertion_index items x conds)).
Proof.
  intros Hm Hx Hin. rewrite (insertElement_unfold _ _ _ items) by assumption.
  rewrite (insertEach_cons a x) by (assumption || now apply Forall2_length in Hm).
  cbv zeta. destruct (lastElements w !! insertion_index items x conds) as [r|] eqn:Hr;
    [|reflexivity].
  rewrite bool_decide_eq_true_2; [reflexivity|].
  apply Hin. eapply list_elem_of_lookup_2, Hr.
Qed.

(** With no condition, every element is appended. *)
Lemma insertEach_no_conditions adds :
  forall items w,
    Forall2 maps_to (lastElements w) items ->
    Forall (fun h => exists o, maps_to h o) adds ->
    exists w', insertEach adds items [] w = (Normal tt, w')
               /\ lastElements w' = lastElements w ++ adds
               /\ children (dom w')
                  = foldl (fun nodes h => place h None nodes) (children (dom w)) adds.
Proof.
  induction adds as [|a adds IH]; intros items w Hm Hadds.
  - exists w. simpl. now rewrite app_nil_r.
  - inversion Hadds as [|? ? [x Hx] Hrest]; subst.
    assert (Hlen : length (lastElements w) = length items) by now apply Forall2_length in Hm.
    rewrite (insertEach_cons a x) by assumption. cbv zeta.
    assert (Hi : insertion_index items x [] = length items) by reflexivity.
    rewrite Hi, <- Hlen, lookup_ge_None_2 by lia.
    destruct (IH (take (length (lastElements w)) items ++ x :: drop (length (lastElements w)) items)
                 (inserted_at w a (length (lastElements w))))
      as (w' & Hrun & Hels & Hch); [|assumption|].
    { now apply maps_to_inserted. }
    exists w'. split; [assumption|]. rewrite Hels, Hch. unfold inserted_at. simpl.
    rewrite take_ge, drop_ge, lookup_ge_None_2 by lia.
    split; [now rewrite <- app_assoc|reflexivity].
Qed.

(** C3: the new handle goes to the first index whose item object the
    new item object compares below, and to the end when there is no
    such index or no condition; with no condition the new handles are
    appended in the order they arrive. *)
Theorem insertElement_first_below (conds : list Condition) (w : world)
  (items : list itemObject) (addElement : handle) (x : itemObject) :
  Forall2 maps_to (lastElements w) items ->
  maps_to addElement x ->
  (forall h, h ∈ lastElements w -> h ∈ children (dom w)) ->
  (exists (i : nat) (w' : world),
     i <= length items
     /\ (forall j e, j < i -> items !! j = Some e -> (0 <= _compare x e conds)%Z)
     /\ (i < length items ->
         conds <> [] /\ exists e, items !! i = Some e /\ (_compare x e conds < 0)%Z)
     /\ insertElement [addElement] conds w = (Normal tt, w')
     /\ lastElements w' = take i (lastElements w) ++ addElement :: drop i (lastElements w)
     /\ children (dom w') = place addElement (lastElements w !! i) (children (dom w))
     /\ forall rest,
         insertElement (addElement :: rest) conds w = insertElement rest conds w')
  /\ (forall addElements,
        conds = [] ->
        Forall (fun h => exists o, maps_to h o) addElements ->
        exists w', insertElement addElements conds w = (Normal tt, w')
                   /\ lastElements w' = lastElements w ++ addElements).
Proof.
  intros Hm Hx Hin. split.
  - exists (insertion_index items x conds),
      (inserted_at w addElement (insertion_index items x conds)).
    split; [apply insertion_index_le|].
    split; [apply insertion_index_before|].
    split; [apply insertion_index_at|].
    split; [now apply insertElement_one|]. do 2 (split; [reflexivity|]).
    intros rest. change (addElement :: rest) with ([addElement] ++ rest).
    now rewrite insertElement_app, (insertElement_one _ _ items _ x).
  - intros adds -> Hadds.
    destruct (insertEach_no_conditions adds items w Hm Hadds) as (w' & Hrun & Hels & _).
    exists w'. now rewrite (insertElement_unfold _ _ _ items).
Qed.

(** C9: when the mapping function throws on an element of
    [addElements], the call ends with that exception, in the world the
    elements before it have left. *)
Theorem insertElement_throw_keeps_earlier (conds : list Condition) (w w' : world)
  (earlier later : list handle) (failing : handle) (e : exn) :
  insertElement earlier conds w = (Normal tt, w') ->
  itemObjectMapFunc failing = Throw e ->
  insertElement (earlier ++ failing :: later) conds w = (Throw e, w').
Proof.
  intros Hrun Hthrow. rewrite insertElement_app, Hrun.
  destruct (insertElement_normal_mapped _ _ _ _ Hrun) as (items & Hm).
  rewrite (insertElement_unfold _ _ _ items) by assumption.
  now apply insertEach_throw.
Qed.

(** ** Ties *)

Lemma Sorted_of_lookup {A : Type} (R : A -> A -> Prop) (l : list A) :
  (forall i a b, l !! i = Some a -> l !! S i = Some b -> R a b) -> Sorted R l.
Proof.
  induction l as [|x l IH]; intros H; constructor.
  - apply IH. intros i a b. apply (H (S i)).
  - destruct l as [|y l]; constructor. now apply (H 0).
Qed.

Lemma mirror_sorted_items conds (elements : list handle) items :
  Forall2 maps_to elements items -> mirror_sorted conds elements ->
  Sorted (no_later conds) items.
Proof.
  intros Hm Hs. apply Sorted_of_lookup. intros i oa ob Ha Hb.
  destruct (Forall2_lookup_r _ _ _ _ _ Hm Ha) as (a & Ha' & Hoa).
  destruct (Forall2_lookup_r _ _ _ _ _ Hm Hb) as (b & Hb' & Hob).
  exact (Hs i a b oa ob Ha' Hb' Hoa Hob).
Qed.

Lemma Sorted_lookup_lt (conds : list Condition) items :
  transitive_on conds items -> Sorted (no_later conds) items ->
  forall j i a b, i < j -> items !! i = Some a -> items !! j = Some b ->
                  no_later conds a b.
Proof.
  intros Htr Hs. induction j as [|j IH]; intros i a b Hij Ha Hb; [lia|].
  destruct (decide (i = j)) as [->|Hne].
  - exact (Sorted_lookup _ _ _ _ _ Hs Ha Hb).
  - destruct (lookup_lt_is_Some_2 items j) as [c Hc].
    { apply lookup_lt_Some in Hb. lia. }
    apply (Htr a c b); eauto using list_elem_of_lookup_2.
    + apply (IH i); [lia|assumption..].
    + exact (Sorted_lookup _ _ _ _ _ Hs Hc Hb).
Qed.

Lemma ties_before_insertion_index (conds : list Condition) items x :
  transitive_on conds (x :: items) -> Sorted (no_later conds) items ->
  forall j e, items !! j = Some e -> _compare x e conds = 0%Z ->
              j < insertion_index items x conds.
Proof.
  intros Htr Hs j e He Htie.
  destruct (decide (j < insertion_index items x conds)) as [|Hge]; [assumption|].
  exfalso.
  destruct (insertion_index_at items x conds) as [_ (e0 & He0 & Hlt)].
  { apply lookup_lt_Some in He. lia. }
  destruct (decide (insertion_index items x conds = j)) as [Heq|Hne].
  - rewrite Heq, He in He0. injection He0 as <-. lia.
  - assert (Hle : no_later conds e0 e).
    { apply (Sorted_lookup_lt conds items) with (j := j) (i := insertion_index items x conds);
        try assumption; [|lia].
      intros a b c Ha Hb Hc. apply Htr; now apply list_elem_of_further. }
    assert (Hback : (_compare e0 x conds <= 0)%Z).
    { apply (Htr e0 e x).
      - eapply list_elem_of_further, list_elem_of_lookup_2, He0.
      - eapply list_elem_of_further, list_elem_of_lookup_2, He.
      - apply list_elem_of_here.
      - exact Hle.
      - rewrite compare_antisym. lia. }
    rewrite (compare_antisym e0 x) in Hback. lia.
Qed.

(** C10, amended: in a sorted array whose compared fields hold, field
    by field, ordered values of one supported type (or null or
    undefined), the new handle is placed after every element whose item
    object its item object ties with. *)
Theorem insertElement_after_ties (conds : list Condition) (w : world)
  (items : list itemObject) (addElement : handle) (x : itemObject) :
  Forall2 maps_to (lastElements w) items ->
  maps_to addElement x ->
  (forall h, h ∈ lastElements w -> h ∈ children (dom w)) ->
  mirror_sorted conds (lastElements w) ->
  columns_typed conds (x :: items) ->
  exists (i : nat) (w' : world),
    insertElement [addElement] conds w = (Normal tt, w')
    /\ lastElements w' = take i (lastElements w) ++ addElement :: drop i (lastElements w)
    /\ forall j e, items !! j = Some e -> _compare x e conds = 0%Z -> j < i.
Proof.
  intros Hm Hx Hin Hs Hty.
  exists (insertion_index items x conds),
    (inserted_at w addElement (insertion_index items x conds)).
  split; [now apply insertElement_one|]. split; [reflexivity|].
  apply ties_before_insertion_index.
  - now apply columns_typed_transitive.
  - now apply (mirror_sorted_items conds (lastElements w)).
Qed.

(** ** The host's sort *)

Lemma sort_insert_Permutation {A : Type} (c : A -> A -> Z) (x : A) (l : list A) :
  sort_insert c x l ≡ₚ x :: l.
Proof.
  induction l as [|y l IH]; simpl; [reflexivity|].
  destruct (0 <? c x y)%Z; [|reflexivity].
  rewrite IH. apply Permutation_swap.
Qed.

Lemma Array_sort_Permutation {A : Type} (c : A -> A -> Z) (l : list A) :
  Array_sort c l ≡ₚ l.
Proof.
  induction l as [|x l IH]; simpl; [reflexivity|].
  now rewrite sort_insert_Permutation, IH.
Qed.

Lemma sort_insert_ext {A : Type} (c c' : A -> A -> Z) (x : A) (l : list A) :
  (forall a b, c a b = c' a b) -> sort_insert c x l = sort_insert c' x l.
Proof.
  intros H. induction l as [|y l IH]; simpl; [reflexivity|].
  now rewrite H, IH.
Qed.

Lemma Array_sort_ext {A : Type} (c c' : A -> A -> Z) (l : list A) :
  (forall a b, c a b = c' a b) -> Array_sort c l = Array_sort c' l.
Proof.
  intros H. induction l as [|x l IH]; simpl; [reflexivity|].
  now rewrite IH, (sort_insert_ext c c').
Qed.

Lemma sort_insert_map {A B : Type} (f : A -> B) (c : B -> B -> Z) (x : A) (l : list A) :
  sort_insert c (f x) (map f l) = map f (sort_insert (fun a b => c (f a) (f b)) x l).
Proof.
  induction l as [|y l IH]; simpl; [reflexivity|].
  destruct (0 <? c (f x) (f y))%Z; simpl; [now rewrite IH|reflexivity].
Qed.

(** Sorting depends on the elements only through the comparisons. *)
Lemma Array_sort_map {A B : Type} (f : A -> B) (c : B -> B -> Z) (l : list A) :
  Array_sort c (map f l) = map f (Array_sort (fun a b => c (f a) (f b)) l).
Proof.
  induction l as [|x l IH]; simpl; [reflexivity|].
  now rewrite IH, sort_insert_map.
Qed.

Lemma sort_insert_head {A : Type} (c : A -> A -> Z) (x : A) (l : list A) :
  sort_insert c x l = x :: l
  \/ exists y rest, l = y :: rest /\ (0 < c x y)%Z
                    /\ sort_insert c x l = y :: sort_insert c x rest.
Proof.
  destruct l as [|y rest]; simpl; [now left|].
  destruct (0 <? c x y)%Z eqn:E; [|now left].
  right. exists y, rest. repeat split. lia.
Qed.

Lemma sort_insert_Sorted {A : Type} (c : A -> A -> Z) (x : A) (l : list A) :
  (forall a b, c a b = (- c b a)%Z) ->
  Sorted (fun a b => (c a b <= 0)%Z) l ->
  Sorted (fun a b => (c a b <= 0)%Z) (sort_insert c x l).
Proof.
  intros Hanti. induction 1 as [|y l Hs IH Hhd]; simpl.
  - repeat constructor.
  - destruct (0 <? c x y)%Z eqn:E.
    + constructor; [assumption|].
      destruct (sort_insert_head c x l) as [->|(z & rest & -> & _ & ->)].
      * constructor. rewrite Hanti. lia.
      * constructor. now inversion Hhd.
    + repeat constructor; [assumption..|lia].
Qed.

(** With an antisymmetric comparator, no two neighbours of the sorted
    array compare positive. *)
Lemma Array_sort_Sorted {A : Type} (c : A -> A -> Z) (l : list A) :
  (forall a b, c a b = (- c b a)%Z) ->
  Sorted (fun a b => (c a b <= 0)%Z) (Array_sort c l).
Proof.
  intros Hanti. induction l as [|x l IH]; simpl; [constructor|].
  now apply sort_insert_Sorted.
Qed.

Lemma precedes_head {A : Type} (a b : A) (l : list A) :
  b ∈ l -> precedes a b (a :: l).
Proof.
  intros Hb. apply list_elem_of_split in Hb as (l2 & l3 & ->).
  now exists [], l2, l3.
Qed.

Lemma precedes_further {A : Type} (a b y : A) (l : list A) :
  precedes a b l -> precedes a b (y :: l).
Proof. intros (l1 & l2 & l3 & ->). now exists (y :: l1), l2, l3. Qed.

Lemma precedes_cons {A : Type} (a b y : A) (l : list A) :
  precedes a b (y :: l) -> (a = y /\ b ∈ l) \/ precedes a b l.
Proof.
  intros ([|z l1] & l2 & l3 & Heq); simpl in Heq; injection Heq as -> ->.
  - left. split; [reflexivity|]. apply elem_of_app. right. apply list_elem_of_here.
  - right. now exists l1, l2, l3.
Qed.

Lemma sort_insert_precedes_old {A : Type} (c : A -> A -> Z) (x a b : A) (l : list A) :
  precedes a b l -> precedes a b (sort_insert c x l).
Proof.
  induction l as [|y l IH]; simpl; intros Hp.
  - destruct Hp as ([|? ?] & ? & ? & ?); discriminate.
  - destruct (0 <? c x y)%Z; [|now apply precedes_further].
    apply precedes_cons in Hp as [[-> Hb]|Hp].
    + apply precedes_head. rewrite sort_insert_Permutation. now apply list_elem_of_further.
    + now apply precedes_further, IH.
Qed.

Lemma sort_insert_precedes_new {A : Type} (c : A -> A -> Z) (x b : A) (l : list A) :
  b ∈ l -> (c x b <= 0)%Z -> precedes x b (sort_insert c x l).
Proof.
  induction l as [|y l IH]; simpl; intros Hb Hle.
  - now apply elem_of_nil in Hb.
  - destruct (0 <? c x y)%Z eqn:E; [|now apply precedes_head].
    apply elem_of_cons in Hb as [->|Hb]; [lia|].
    now apply precedes_further, IH.
Qed.

(** The sort is stable: an element that stands before another and does
    not compare above it still stands before it afterwards. *)
Lemma Array_sort_stable {A : Type} (c : A -> A -> Z) (a b : A) (l : list A) :
  precedes a b l -> (c a b <= 0)%Z -> precedes a b (Array_sort c l).
Proof.
  induction l as [|x l IH]; simpl; intros Hp Hle.
  - destruct Hp as ([|? ?] & ? & ? & ?); discriminate.
  - apply precedes_cons in Hp as [[-> Hb]|Hp].
    + apply sort_insert_precedes_new; [|assumption].
      now rewrite Array_sort_Permutation.
    + now apply sort_insert_precedes_old, IH.
Qed.

(** ** The index tag *)

Lemma getProperty_setProperty_eq props name v :
  getProperty (setProperty props name v) name = v.
Proof.
  induction props as [|[k w] props IH]; simpl.
  - now rewrite String.eqb_refl.
  - destruct (String.eqb k name) eqn:E; simpl; now rewrite E.
Qed.

Lemma getProperty_setProperty_ne props name name' v :
  name' <> name ->
  getProperty (setProperty props name v) name' = getProperty props name'.
Proof.
  intros Hne. induction props as [|[k w] props IH]; simpl.
  - destruct (String.eqb_spec name name'); [congruence|reflexivity].
  - destruct (String.eqb_spec k name) as [->|Hk]; simpl.
    + destruct (String.eqb_spec name name'); [congruence|reflexivity].
    + now rewrite IH.
Qed.

Lemma split_nonempty sep s : JSString.split sep s <> [].
Proof.
  destruct s as [|c s]; simpl; [discriminate|].
  destruct (Ascii.eqb c sep); [discriminate|].
  destruct (JSString.split sep s); discriminate.
Qed.

Lemma resolve_tagged idx o path :
  head_name path <> "__index" ->
  getPropertyValueByNamePath (tag idx o) path = getPropertyValueByNamePath o path.
Proof.
  unfold head_name, getPropertyValueByNamePath, tag.
  pose proof (split_nonempty "." path) as Hsplit.
  destruct (JSString.split "." path) as [|name names]; [congruence|].
  intros Hne. simpl. now rewrite getProperty_setProperty_ne.
Qed.

Lemma compareField_tagged i j a b path :
  head_name path <> "__index" ->
  _compareField (tag i a) (tag j b) path = _compareField a b path.
Proof. intros H. unfold _compareField. now rewrite !resolve_tagged. Qed.

Lemma compare_tagged conds i j a b :
  index_free conds -> _compare (tag i a) (tag j b) conds = _compare a b conds.
Proof.
  induction 1 as [|c conds Hc _ IH]; simpl; [reflexivity|].
  now rewrite compareField_tagged, IH.
Qed.

Lemma tagFrom_items idx (elements : list handle) items w :
  Forall2 maps_to elements items ->
  tagFrom idx elements w
  = (Normal (map (fun p => tag p.1 p.2) (indexFrom idx items)), w).
Proof.
  intros H. revert idx. induction H as [|h o elements items Hh _ IH]; intros idx;
    simpl; [reflexivity|].
  unfold bind at 1. unfold lift at 1. rewrite Hh.
  unfold bind at 1. now rewrite IH.
Qed.

Lemma indexFrom_zip_snd {A B : Type} idx (a : list A) (b : list B) :
  length a = length b ->
  map (fun p => (p.1, p.2.2)) (indexFrom idx (zip a b)) = indexFrom idx b.
Proof.
  revert idx b. induction a as [|x a IH]; intros idx [|y b]; simpl; try discriminate;
    [reflexivity|].
  intros [= Hlen]. now rewrite IH.
Qed.

Lemma indexFrom_values {A : Type} idx (a : list A) :
  map snd (indexFrom idx a) = a.
Proof.
  revert idx. induction a as [|x a IH]; intros idx; simpl; [reflexivity|].
  now rewrite IH.
Qed.

Lemma indexFrom_lookup {A : Type} (pre a : list A) :
  Forall (fun p => array_get (pre ++ a) p.1 = Some p.2)
         (indexFrom (Z.of_nat (length pre)) a).
Proof.
  revert pre. induction a as [|x a IH]; intros pre; simpl; constructor.
  - unfold array_get. cbn [fst snd].
    rewrite (proj2 (Z.ltb_ge _ _)) by lia.
    rewrite Nat2Z.id. now rewrite list_lookup_middle.
  - specialize (IH (pre ++ [x])). rewrite length_app, <- app_assoc in IH. simpl in IH.
    now rewrite Nat2Z.inj_add in IH.
Qed.

(** ** The backward pass *)

Lemma filter_all {A : Type} (P : A -> Prop) `{!forall x, Decision (P x)} (l : list A) :
  Forall P l -> filter P l = l.
Proof.
  induction 1 as [|x l Hx _ IH]; [reflexivity|].
  now rewrite filter_cons_True, IH.
Qed.

Lemma filter_none {A : Type} (P : A -> Prop) `{!forall x, Decision (P x)} (l : list A) :
  Forall (fun x => ~ P x) l -> filter P l = [].
Proof.
  induction 1 as [|x l Hx _ IH]; [reflexivity|].
  now rewrite filter_cons_False, IH.
Qed.

Lemma insert_at_child_elem node ref nodes : node ∈ insert_at_child node ref nodes.
Proof.
  induction nodes as [|h nodes IH]; simpl.
  - apply list_elem_of_here.
  - case_decide; [apply list_elem_of_here|now apply list_elem_of_further].
Qed.

Lemma insert_at_child_app node ref front back :
  ref ∉ front ->
  insert_at_child node ref (front ++ ref :: back) = front ++ node :: ref :: back.
Proof.
  induction front as [|h front IH]; simpl; intros Hnot.
  - now rewrite decide_True.
  - rewrite not_elem_of_cons in Hnot. destruct Hnot as [Hne Hnot].
    rewrite decide_False by congruence. now rewrite IH.
Qed.

Lemma place_elem node ref nodes :
  (forall r, ref = Some r -> r ∈ nodes) -> node ∈ place node ref nodes.
Proof.
  intros Href. destruct ref as [r|]; simpl.
  - case_decide as E; [subst; now apply Href|apply insert_at_child_elem].
  - apply elem_of_app. right. apply list_elem_of_here.
Qed.



Lemma moveRounds_run (targetElementIndexies : list value) (targets elements : list handle) :
  Forall2 (fun v t => element_at elements v = Some t) targetElementIndexies targets ->
  forall round lastElement w,
    round = 0 \/ round < length targets ->
    (forall r, lastElement = Some r -> r ∈ children (dom w)) ->
    moveRounds round targetElementIndexies elements lastElement w
    = (Normal tt,
       mkWorld (mkContainer (replay (children (dom w)) (moves_of round targets lastElement))
                            (calls (dom w) ++ moves_of round targets lastElement))
               (lastElements w)).
Proof.
  intros HT. induction round as [|round IH]; intros lastElement w Hround Hlast.
  - simpl. unfold ret. rewrite app_nil_r. now destruct w as [[? ?] ?].
  - destruct Hround as [|Hlt]; [discriminate|].
    destruct (lookup_lt_is_Some_2 targets (S round) Hlt) as [t Ht].
    destruct (Forall2_lookup_r _ _ _ _ _ HT Ht) as (v & Hv & Hvt).
    cbn [moveRounds moves_of]. rewrite Hv, Hvt, Ht.
    unfold bind at 1. unfold insertBefore at 1.
    assert (Hok : match lastElement with
                  | Some r => bool_decide (r ∈ children (dom w))
                  | None => true
                  end = true).
    { destruct lastElement as [r|]; [|reflexivity].
      apply bool_decide_eq_true_2. now apply Hlast. }
    rewrite Hok. rewrite IH.
    + simpl. now rewrite <- app_assoc.
    + right. lia.
    + intros r [= <-]. simpl. now apply place_elem.
Qed.

Lemma place_next (t : handle) (front suffix : list handle) :
  t ∉ suffix -> (forall h, h ∈ front -> h ∉ suffix) ->
  place t (head suffix) (front ++ suffix)
  = filter (fun h => h <> t) front ++ t :: suffix.
Proof.
  intros Ht Hdisj. destruct suffix as [|l suffix]; simpl.
  - unfold remove_child. now rewrite !app_nil_r.
  - rewrite not_elem_of_cons in Ht. destruct Ht as [Hne Ht].
    rewrite decide_False by assumption.
    unfold remove_child. rewrite filter_app.
    rewrite (filter_all _ (l :: suffix)).
    + apply insert_at_child_app. rewrite list_elem_of_filter. intros [_ Hl].
      apply (Hdisj l Hl). apply list_elem_of_here.
    + apply Forall_forall. intros h Hh ->. rewrite elem_of_cons in Hh.
      destruct Hh; [congruence|contradiction].
Qed.

Lemma replay_moves (targets : list handle) :
  NoDup targets ->
  forall round front,
    round < length targets ->
    (forall h, h ∈ front -> h ∉ drop (S round) targets) ->
    replay (front ++ drop (S round) targets)
           (moves_of round targets (head (drop (S round) targets)))
    = filter (fun h => h ∉ take round (drop 1 targets)) front ++ drop 1 targets.
Proof.
  intros Hnd. induction round as [|round IH]; intros front Hlt Hdisj.
  - simpl. rewrite filter_all; [reflexivity|].
    apply Forall_forall. intros h _. apply not_elem_of_nil.
  - destruct (lookup_lt_is_Some_2 targets (S round) Hlt) as [t Ht].
    cbn [moves_of]. rewrite Ht. cbn [replay foldl fst snd].
    assert (Htnot : t ∉ drop (S (S round)) targets).
    { intros Hin. apply list_elem_of_lookup in Hin as [k Hk].
      rewrite lookup_drop in Hk.
      pose proof (NoDup_lookup _ _ _ _ Hnd Ht Hk). lia. }
    rewrite place_next by assumption.
    rewrite <- (drop_S _ _ _ Ht).
    change (foldl (fun nodes m => place m.1 m.2 nodes) ?n ?m) with (replay n m).
    replace (Some t) with (head (drop (S round) targets))
      by now rewrite (drop_S _ _ _ Ht).
    rewrite IH.
    + f_equal. rewrite list_filter_filter. apply list_filter_iff. intros h.
      assert (Hk : drop 1 targets !! round = Some t)
        by now rewrite lookup_drop.
      rewrite (take_S_r _ _ _ Hk), not_elem_of_app, not_elem_of_cons.
      pose proof (not_elem_of_nil h). tauto.
    + lia.
    + intros h. rewrite list_elem_of_filter, (drop_S _ _ _ Ht), not_elem_of_cons.
      intros [Hne Hh]. split; [assumption|now apply Hdisj].
Qed.

Lemma filter_keeps_first (t0 : handle) (others nodes : list handle) :
  NoDup (t0 :: others) -> nodes ≡ₚ t0 :: others ->
  filter (fun h => h ∉ others) nodes = [t0].
Proof.
  intros Hnd Hp. apply Permutation_singleton_r. rewrite Hp.
  apply NoDup_cons in Hnd as [Hnot _].
  rewrite filter_cons_True by assumption.
  rewrite filter_none; [reflexivity|].
  apply Forall_forall. tauto.
Qed.

(** After the whole pass over a list of distinct targets, all targets
    but the first stand at the end, in target order. *)
Lemma replay_tail (targets nodes : list handle) :
  NoDup targets ->
  replay nodes (moves_of (length targets - 1) targets None)
  = filter (fun h => h ∉ drop 1 targets) nodes ++ drop 1 targets.
Proof.
  intros Hnd. destruct targets as [|t0 others].
  - simpl. rewrite app_nil_r, filter_all; [reflexivity|].
    apply Forall_forall. intros h _. apply not_elem_of_nil.
  - pose proof (replay_moves (t0 :: others) Hnd (length others) nodes) as H.
    cbn [length] in *. replace (S (length others) - 1) with (length others) by lia.
    rewrite drop_ge in H by (simpl; lia). rewrite app_nil_r in H. simpl in H.
    rewrite H; [|lia|intros h _; apply not_elem_of_nil].
    now rewrite drop_0, take_ge by lia.
Qed.



(** After the whole pass over a list of distinct targets that are the
    children of the container, the children are in target order. *)
Lemma replay_all (targets nodes : list handle) :
  NoDup targets -> nodes ≡ₚ targets ->
  replay nodes (moves_of (length targets - 1) targets None) = targets.
Proof.
  intros Hnd Hp. destruct targets as [|t0 others].
  - apply Permutation_nil_r in Hp. now subst.
  - pose proof (replay_moves (t0 :: others) Hnd (length others) nodes) as H.
    cbn [length] in *. replace (S (length others) - 1) with (length others) by lia.
    rewrite drop_ge in H by (simpl; lia). rewrite app_nil_r in H. simpl in H.
    rewrite H; [|lia|intros h _; apply not_elem_of_nil].
    rewrite drop_0, take_ge by lia. now rewrite (filter_keeps_first t0).
Qed.

(** ** Resorting *)

Lemma targetIndexies_rows conds (elements : list handle) items :
  length elements = length items ->
  targetIndexies conds items
  = map (fun p => VNumber (Num p.1)) (sorted_rows conds elements items).
Proof.
  intros Hlen. unfold targetIndexies, sorted_rows.
  rewrite <- (indexFrom_zip_snd 0 elements items Hlen).
  rewrite map_map. cbn [fst snd].
  rewrite (Array_sort_map (fun p : Z * (handle * itemObject) => tag p.1 p.2.2)).
  rewrite map_map. apply map_ext. intros p. apply getProperty_setProperty_eq.
Qed.

Lemma sorted_rows_lookup conds (elements : list handle) items :
  Forall (fun p => array_get elements p.1 = Some p.2.1)
         (sorted_rows conds elements items).
Proof.
  unfold sorted_rows. rewrite Array_sort_Permutation.
  pose proof (indexFrom_lookup [] (zip elements items)) as H. simpl in H.
  apply Forall_forall. intros p Hp. rewrite Forall_forall in H.
  specialize (H p Hp). unfold array_get in *.
  destruct (p.1 <? 0)%Z; [discriminate|].
  rewrite lookup_zip_with in H.
  destruct (elements !! Z.to_nat p.1) as [h|]; [|discriminate].
  simpl in H. destruct (items !! Z.to_nat p.1); simpl in H; [|discriminate].
  injection H as <-. reflexivity.
Qed.

Lemma rows_targets (elements : list handle) (rows : list (Z * (handle * itemObject))) :
  Forall (fun p => array_get elements p.1 = Some p.2.1) rows ->
  omap (element_at elements) (map (fun p => VNumber (Num p.1)) rows)
  = map (fun p => p.2.1) rows
  /\ Forall2 (fun v t => element_at elements v = Some t)
             (map (fun p => VNumber (Num p.1)) rows) (map (fun p => p.2.1) rows).
Proof.
  induction 1 as [|p rows Hp _ [IH1 IH2]]; simpl; [split; constructor|].
  rewrite Hp. simpl. split; [f_equal; exact IH1|].
  now constructor.
Qed.

Lemma targetElements_rows conds (elements : list handle) items :
  length elements = length items ->
  targetElements conds elements items
  = map (fun p => p.2.1) (sorted_rows conds elements items)
  /\ Forall2 (fun v t => element_at elements v = Some t)
             (targetIndexies conds items) (targetElements conds elements items).
Proof.
  intros Hlen. unfold targetElements.
  rewrite (targetIndexies_rows conds elements) by assumption.
  destruct (rows_targets elements _ (sorted_rows_lookup conds elements items))
    as [H1 H2].
  rewrite H1. now split.
Qed.

Lemma targetElements_Permutation conds (elements : list handle) items :
  length elements = length items ->
  targetElements conds elements items ≡ₚ elements.
Proof.
  intros Hlen. rewrite (proj1 (targetElements_rows conds elements items Hlen)).
  unfold sorted_rows. rewrite Array_sort_Permutation.
  rewrite <- (map_map snd fst), indexFrom_values.
  change (map fst (zip elements items)) with (fst <$> zip elements items).
  rewrite fst_zip by lia. reflexivity.
Qed.

Lemma targetElements_reference conds (elements : list handle) items :
  length elements = length items -> index_free conds ->
  targetElements conds elements items = reference_order conds elements items.
Proof.
  intros Hlen Hfree. rewrite (proj1 (targetElements_rows conds elements items Hlen)).
  unfold sorted_rows, reference_order.
  rewrite (Array_sort_ext _ (fun p q : Z * (handle * itemObject) =>
                               _compare p.2.2 q.2.2 conds))
    by (intros; now apply compare_tagged).
  rewrite <- (indexFrom_values 0 (zip elements items)) at 2.
  rewrite (Array_sort_map snd (fun p q : handle * itemObject => _compare p.2 q.2 conds)).
  now rewrite map_map.
Qed.

(** What a call of [sortElements] does when every element has an item
    object: the rounds over the target elements, and nothing else. *)
Lemma sortElements_run (conds : list Condition) (w : world) (items : list itemObject) :
  Forall2 maps_to (lastElements w) items ->
  let targets := targetElements conds (lastElements w) items in
  let moves := moves_of (length targets - 1) targets None in
  sortElements conds w
  = (Normal tt,
     mkWorld (mkContainer (replay (children (dom w)) moves) (calls (dom w) ++ moves))
             (lastElements w)).
Proof.
  intros Hm targets moves.
  assert (Hlen : length (lastElements w) = length items) by now apply Forall2_length in Hm.
  destruct (targetElements_rows conds (lastElements w) items Hlen) as [_ HT].
  unfold sortElements, bind at 1, read_lastElements. unfold bind at 1.
  rewrite (tagFrom_items 0 _ items) by assumption.
  fold (targetIndexies conds items).
  rewrite (Forall2_length _ _ _ HT). fold targets.
  rewrite (moveRounds_run _ targets _ HT).
  - reflexivity.
  - destruct targets; simpl; [now left|right; lia].
  - discriminate.
Qed.



Lemma Forall2_zip {A B : Type} (R : A -> B -> Prop) (l : list A) (k : list B) :
  Forall2 R l k -> Forall (fun p => R p.1 p.2) (zip l k).
Proof. induction 1; simpl; now constructor. Qed.

Lemma reference_order_Permutation conds (elements : list handle) items :
  length elements = length items ->
  reference_order conds elements items ≡ₚ elements.
Proof.
  intros Hlen. unfold reference_order. rewrite Array_sort_Permutation.
  change (map fst (zip elements items)) with (fst <$> zip elements items).
  rewrite fst_zip by lia. reflexivity.
Qed.

(** The reference order has no inversion. *)
Lemma reference_order_sorted conds (elements : list handle) items :
  Forall2 maps_to elements items ->
  mirror_sorted conds (reference_order conds elements items).
Proof.
  intros Hm. unfold reference_order.
  set (rows := Array_sort (fun p q : handle * itemObject => _compare p.2 q.2 conds)
                          (zip elements items)).
  assert (Hs : Sorted (fun p q : handle * itemObject => (_compare p.2 q.2 conds <= 0)%Z) rows).
  { apply Array_sort_Sorted. intros a b. apply compare_antisym. }
  assert (Hrows : Forall (fun p => maps_to p.1 p.2) rows).
  { unfold rows. rewrite Array_sort_Permutation. now apply Forall2_zip. }
  intros i a b oa ob Ha Hb Hoa Hob.
  change (map fst rows) with (fst <$> rows) in Ha, Hb.
  apply list_lookup_fmap_Some in Ha as (p & -> & Hp).
  apply list_lookup_fmap_Some in Hb as (q & -> & Hq).
  rewrite Forall_forall in Hrows.
  pose proof (Hrows p (list_elem_of_lookup_2 _ _ _ Hp)) as Hp'.
  pose proof (Hrows q (list_elem_of_lookup_2 _ _ _ Hq)) as Hq'.
  unfold maps_to in *.
  assert (p.2 = oa) by congruence. assert (q.2 = ob) by congruence. subst.
  exact (Sorted_lookup _ _ _ _ _ Hs Hp Hq).
Qed.

(** What [sortElements] re-establishes is the order of the children:
    they have no inversion afterwards. *)
Lemma sortElements_children_sorted (conds : list Condition) (w : world)
  (items : list itemObject) :
  Forall2 maps_to (lastElements w) items ->
  NoDup (lastElements w) ->
  children (dom w) ≡ₚ lastElements w ->
  index_free conds ->
  mirror_sorted conds (children (dom (sortElements conds w).2)).
Proof.
  intros Hm Hnd Hp Hfree.
  assert (Hlen : length (lastElements w) = length items) by now apply Forall2_length in Hm.
  pose proof (targetElements_Permutation conds _ _ Hlen) as Hperm.
  rewrite (sortElements_run conds w items Hm). simpl.
  rewrite replay_all, targetElements_reference by
    (assumption || (now rewrite Hperm) || (now rewrite Hp, Hperm)).
  now apply reference_order_sorted.
Qed.

(** [sortElements] reads the array and never writes it. *)
Lemma sortElements_lastElements (conds : list Condition) (w : world)
  (items : list itemObject) :
  Forall2 maps_to (lastElements w) items ->
  lastElements (sortElements conds w).2 = lastElements w.
Proof. intros Hm. now rewrite (sortElements_run conds w items Hm). Qed.

(** C8, amended: on two values of the same supported type that the
    relational operators order (no NaN, no Date with a NaN time value),
    or null or undefined, the field comparator is antisymmetric, and
    it is transitive along such pairs. *)
Theorem compareField_preorder (a b c : itemObject) (path : string) :
  comparable (getPropertyValueByNamePath a path)
             (getPropertyValueByNamePath b path) = true ->
  comparable (getPropertyValueByNamePath b path)
             (getPropertyValueByNamePath c path) = true ->
  _compareField a b path = (- _compareField b a path)%Z
  /\ ((_compareField a b path <= 0)%Z -> (_compareField b c path <= 0)%Z ->
      (_compareField a c path <= 0)%Z).
Proof.
  intros Hab Hbc. split; [apply compareField_antisym|].
  rewrite !compareField_orderValues. now apply orderValues_trans.
Qed.

Lemma sortedb_Sorted (conds : list Condition) (items : list itemObject) :
  sortedb conds items = true -> Sorted (no_later conds) items.
Proof.
  induction items as [|a [|b rest] IH]; simpl; intros H.
  - constructor.
  - repeat constructor.
  - apply andb_true_iff in H as [Hab Hrest]. constructor; [now apply IH|].
    constructor. unfold no_later. lia.
Qed.

Lemma mirror_sorted_check (conds : list Condition) (elements : list handle)
  (items : list itemObject) :
  Forall2 maps_to elements items -> sortedb conds items = true ->
  mirror_sorted conds elements.
Proof.
  intros Hm Hs.
  apply (mirror_ok_sorted conds (mkWorld (mkContainer [] []) elements)).
  exists items. split; [assumption|now apply sortedb_Sorted].
Qed.

Lemma mirror_unsorted_check (conds : list Condition) (elements : list handle)
  (items : list itemObject) :
  Forall2 maps_to elements items -> sortedb conds items = false ->
  ~ mirror_sorted conds elements.
Proof.
  intros Hm Hs Hsorted.
  pose proof (mirror_sorted_items conds elements items Hm Hsorted) as H.
  clear Hm Hsorted. induction H as [|a items _ IH Hhd]; [discriminate|].
  destruct items as [|b rest]; [discriminate|]. simpl in Hs.
  inversion Hhd; subst. unfold no_later in *.
  apply andb_false_iff in Hs as [Hs|Hs]; [lia|now apply IH].
Qed.

(** * Further facts *)

(** ** The comparator on all item objects *)

Lemma js_lt_irrefl (x : value) : js_lt x x = false.
Proof.
  destruct (js_lt x x) eqn:E; [|reflexivity].
  now rewrite (js_lt_asym _ _ E) in E.
Qed.

(** X1: the multi-key comparator answers -1, 0 or 1, swapping the two
    items negates the answer, and an item ties with itself, for all
    item objects and conditions. *)
Theorem compare_sign_antisymmetric (a b : itemObject) (conds : list Condition) :
  (_compare a b conds = (-1)%Z \/ _compare a b conds = 0%Z \/ _compare a b conds = 1%Z)
  /\ _compare a b conds = (- _compare b a conds)%Z
  /\ _compare a a conds = 0%Z.
Proof.
  split; [apply compare_range|]. split; [apply compare_antisym|].
  pose proof (compare_antisym a a conds). lia.
Qed.

Lemma compare_cons_nonzero (a b : itemObject) (c : Condition) (conds : list Condition) :
  _compareField a b (fieldName c) <> 0%Z ->
  _compare a b (c :: conds) <> 0%Z
  /\ _compare a b (c :: conds)
     = (if isAscendingOrder c then _compareField a b (fieldName c)
        else - _compareField a b (fieldName c))%Z.
Proof.
  intros Hne. simpl.
  destruct (_compareField a b (fieldName c) =? 0)%Z eqn:E; [lia|].
  destruct (isAscendingOrder c); split; (reflexivity || lia).
Qed.

(** X2: the conditions are read in order, and later conditions only
    break the ties of earlier ones. *)
Theorem compare_app (a b : itemObject) (conds1 conds2 : list Condition) :
  _compare a b (conds1 ++ conds2)
  = if (_compare a b conds1 =? 0)%Z then _compare a b conds2
    else _compare a b conds1.
Proof.
  induction conds1 as [|c conds1 IH]; [reflexivity|].
  rewrite <- app_comm_cons.
  destruct (decide (_compareField a b (fieldName c) = 0%Z)) as [Hz|Hnz].
  - simpl. rewrite Hz. simpl. exact IH.
  - destruct (compare_cons_nonzero a b c conds1 Hnz) as [Hne1 Heq1].
    destruct (compare_cons_nonzero a b c (conds1 ++ conds2) Hnz) as [_ Heq2].
    rewrite Heq2, <- Heq1.
    destruct (_compare a b (c :: conds1) =? 0)%Z eqn:E; [lia|reflexivity].
Qed.

(** X3: reversing the direction of every condition reverses the
    order. *)
Theorem compare_reverseConditions (a b : itemObject) (conds : list Condition) :
  _compare a b (reverseConditions conds) = (- _compare a b conds)%Z.
Proof.
  induction conds as [|c conds IH]; [reflexivity|].
  simpl. rewrite IH.
  destruct (_compareField a b (fieldName c) =? 0)%Z; [reflexivity|].
  destruct (isAscendingOrder c); simpl; lia.
Qed.

(** X4: two items tie exactly when every condition's field ties. *)
Theorem compare_tie_iff (a b : itemObject) (conds : list Condition) :
  _compare a b conds = 0%Z
  <-> Forall (fun c => _compareField a b (fieldName c) = 0%Z) conds.
Proof.
  induction conds as [|c conds IH]; [split; [constructor|reflexivity]|].
  destruct (decide (_compareField a b (fieldName c) = 0%Z)) as [Hz|Hnz].
  - simpl. rewrite Hz. simpl. rewrite IH. split.
    + intros H. now constructor.
    + intros H. now inversion H.
  - destruct (compare_cons_nonzero a b c conds Hnz) as [Hne _]. split.
    + intros H. contradiction.
    + intros H. inversion H. contradiction.
Qed.

(** X5: over items whose compared fields hold, field by field, ordered
    values of one supported type (null and undefined apart), the
    multi-key comparator is transitive, also strictly. *)
Theorem compare_transitive_typed (conds : list Condition) (items : list itemObject)
  (a b c : itemObject) :
  columns_typed conds items ->
  a ∈ items -> b ∈ items -> c ∈ items ->
  ((_compare a b conds <= 0)%Z -> (_compare b c conds <= 0)%Z ->
   (_compare a c conds <= 0)%Z)
  /\ ((_compare a b conds < 0)%Z -> (_compare b c conds <= 0)%Z ->
      (_compare a c conds < 0)%Z)
  /\ ((_compare a b conds = 0)%Z -> (_compare b c conds = 0)%Z ->
      (_compare a c conds = 0)%Z).
Proof.
  intros Hty Ha Hb Hc.
  pose proof (columns_typed_transitive conds items Hty) as Htr.
  pose proof (Htr a b c Ha Hb Hc) as T1.
  pose proof (Htr c a b Hc Ha Hb) as T2.
  pose proof (Htr c b a Hc Hb Ha) as T3.
  pose proof (Htr b c a Hb Hc Ha) as T4.
  pose proof (Htr b a c Hb Ha Hc) as T5.
  pose proof (Htr a c b Ha Hc Hb) as T6.
  rewrite (compare_antisym c a), (compare_antisym c b), (compare_antisym b a) in *.
  repeat split; lia.
Qed.

(** X6: on two values of one supported type that are ordered, or null
    or undefined, the field comparator ties exactly when the two values
    are the same. *)
Theorem compareField_tie_iff_equal (k : kind) (a b : itemObject) (path : string) :
  typed k (getPropertyValueByNamePath a path) = true ->
  typed k (getPropertyValueByNamePath b path) = true ->
  (_compareField a b path = 0%Z
   <-> getPropertyValueByNamePath a path = getPropertyValueByNamePath b path).
Proof.
  rewrite compareField_orderValues.
  unfold typed, orderValues, js_gt, js_lt.
  destruct (getPropertyValueByNamePath a path) as [| |bx|[|nx]|sx|[|tx]|ox],
    (getPropertyValueByNamePath b path) as [| |by'|[|ny]|sy|[|ty]|oy], k;
    simpl; try discriminate; intros _ _;
    try (split; [discriminate|congruence]); try (split; reflexivity).
  - destruct bx, by'; simpl; split; congruence.
  - destruct (nx <? ny)%Z eqn:E1, (ny <? nx)%Z eqn:E2; split;
      try discriminate; try (intros [= ->]; lia).
    intros _. f_equal. f_equal. lia.
  - destruct (String.ltb sx sy) eqn:E1.
    + split; [discriminate|]. intros [= ->]. now rewrite string_ltb_irrefl in E1.
    + destruct (String.ltb sy sx) eqn:E2.
      * split; [discriminate|]. intros [= ->]. now rewrite string_ltb_irrefl in E2.
      * split; [|reflexivity]. intros _. f_equal. now apply string_ltb_total.
  - destruct (tx <? ty)%Z eqn:E1, (ty <? tx)%Z eqn:E2; split;
      try discriminate; try (intros [= ->]; lia).
    intros _. f_equal. f_equal. lia.
Qed.

(** ** More on insertion *)

(** X7: in an array without inversion over well-typed fields, the
    position [_findPosition] answers splits the array: the new item is
    not below any item in front of the position and is below every item
    from the position on; the answer -1 stands for the end. *)
Theorem findPosition_partition (conds : list Condition) (items : list itemObject)
  (x : itemObject) :
  (forall i a b, items !! i = Some a -> items !! S i = Some b ->
                 (_compare a b conds <= 0)%Z) ->
  columns_typed conds (x :: items) ->
  let p := _findPosition items x conds in
  (p = (-1)%Z \/ (0 <= p < Z.of_nat (length items))%Z)
  /\ (forall j e, items !! j = Some e -> p = (-1)%Z \/ (Z.of_nat j < p)%Z ->
                  (0 <= _compare x e conds)%Z)
  /\ (forall j e, items !! j = Some e -> (0 <= p <= Z.of_nat j)%Z ->
                  (_compare x e conds < 0)%Z).
Proof.
  intros Hadj Hty. cbv zeta. rewrite findPosition_index.
  pose proof (insertion_index_le items x conds) as Hle.
  pose proof (columns_typed_transitive _ _ Hty) as Htr.
  pose proof (Sorted_of_lookup (no_later conds) items Hadj) as Hs.
  set (i := insertion_index items x conds) in *.
  case_decide as Hend.
  - split; [now left|]. split; [|intros; lia].
    intros j e He _. apply (insertion_index_before items x conds j e); [|assumption].
    apply lookup_lt_Some in He. fold i. lia.
  - split; [right; lia|]. split.
    + intros j e He [Hneg|Hlt]; [lia|].
      apply (insertion_index_before items x conds j e); [fold i; lia|assumption].
    + intros j e He Hj.
      destruct (insertion_index_at items x conds) as [_ (e0 & He0 & Hlt)]; [fold i; lia|].
      fold i in He0.
      destruct (decide (i = j)) as [<-|Hne]; [congruence|].
      assert (Hrel : no_later conds e0 e).
      { apply (Sorted_lookup_lt conds items) with (j := j) (i := i);
          try assumption; [|lia].
        intros a b c Ha Hb Hc. apply Htr; now apply list_elem_of_further. }
      unfold no_later in Hrel.
      destruct (Z_lt_le_dec (_compare x e conds) 0) as [|Hge]; [assumption|exfalso].
      assert (Hback : (_compare e0 x conds <= 0)%Z).
      { apply (Htr e0 e x).
        - eapply list_elem_of_further, list_elem_of_lookup_2, He0.
        - eapply list_elem_of_further, list_elem_of_lookup_2, He.
        - apply list_elem_of_here.
        - exact Hrel.
        - rewrite compare_antisym. lia. }
      rewrite (compare_antisym e0 x) in Hback. lia.
Qed.

Lemma place_fresh (elements : list handle) (a : handle) (i : nat) :
  NoDup elements -> a ∉ elements ->
  place a (elements !! i) elements = take i elements ++ a :: drop i elements.
Proof.
  intros Hnd Ha.
  assert (Hrm : remove_child a elements = elements).
  { apply filter_all, Forall_forall. intros h Hh ->. contradiction. }
  destruct (elements !! i) as [r|] eqn:Hr; simpl.
  - rewrite decide_False by (intros ->; apply Ha; eapply list_elem_of_lookup_2, Hr).
    rewrite Hrm, (drop_S _ _ _ Hr).
    rewrite <- (take_drop i elements) at 1. rewrite (drop_S _ _ _ Hr).
    apply insert_at_child_app. intros Hin.
    apply list_elem_of_lookup in Hin as [j Hj].
    pose proof (lookup_lt_Some _ _ _ Hj) as Hlt. rewrite length_take in Hlt.
    rewrite lookup_take_lt in Hj by lia.
    pose proof (NoDup_lookup _ _ _ _ Hnd Hj Hr). lia.
  - apply lookup_ge_None_1 in Hr. now rewrite Hrm, take_ge, drop_ge by lia.
Qed.

Lemma insertEach_lock_step (conds : list Condition) adds :
  forall items w,
    Forall2 maps_to (lastElements w) items ->
    children (dom w) = lastElements w ->
    NoDup (lastElements w) ->
    NoDup adds ->
    (forall h, h ∈ adds -> h ∉ lastElements w) ->
    children (dom (insertEach adds items conds w).2)
    = lastElements (insertEach adds items conds w).2
    /\ NoDup (lastElements (insertEach adds items conds w).2).
Proof.
  induction adds as [|a adds IH]; intros items w Hm Hch Hnd Hadds Hfresh;
    [now split|].
  apply NoDup_cons in Hadds as [Ha Hadds].
  assert (Hnew : a ∉ lastElements w) by apply Hfresh, list_elem_of_here.
  destruct (itemObjectMapFunc a) as [x|e] eqn:Hx;
    [|rewrite (insertEach_throw a e) by assumption; now split].
  rewrite (insertEach_cons a x) by (assumption || now apply Forall2_length in Hm).
  cbv zeta. set (i := insertion_index items x conds).
  assert (Hnext : children (dom (insertEach adds (take i items ++ x :: drop i items)
                                   conds (inserted_at w a i)).2)
                  = lastElements (insertEach adds (take i items ++ x :: drop i items)
                                    conds (inserted_at w a i)).2
                  /\ NoDup (lastElements (insertEach adds (take i items ++ x :: drop i items)
                                           conds (inserted_at w a i)).2)).
  assert (Hp : take i (lastElements w) ++ a :: drop i (lastElements w)
                 ≡ₚ a :: lastElements w).
  { rewrite <- Permutation_middle. now rewrite take_drop. }
  { apply IH; simpl.
    - now apply maps_to_inserted.
    - rewrite Hch. now apply place_fresh.
    - rewrite Hp. now apply NoDup_cons.
    - assumption.
    - intros h Hh. rewrite Hp, not_elem_of_cons. split.
      + intros ->. contradiction.
      + apply Hfresh. now apply list_elem_of_further. }
  destruct (lastElements w !! i) as [r|] eqn:Hr; [|assumption].
  rewrite bool_decide_eq_true_2; [assumption|].
  rewrite Hch. eapply list_elem_of_lookup_2, Hr.
Qed.

Lemma insertElement_mapM_throw (conds : list Condition) adds w e :
  mapM (fun element => lift (itemObjectMapFunc element)) (lastElements w) w = (Throw e, w) ->
  insertElement adds conds w = (Throw e, w).
Proof.
  intros He. unfold insertElement, bind at 1, read_lastElements.
  unfold bind at 1. now rewrite He.
Qed.

(** X8: a container and an array that hold the same distinct handles
    in the same order still do after [insertElement] of distinct new
    handles, however the call ends. *)
Theorem insertElement_lock_step (conds : list Condition) (w : world)
  (addElements : list handle) :
  children (dom w) = lastElements w ->
  NoDup (lastElements w) ->
  NoDup addElements ->
  (forall h, h ∈ addElements -> h ∉ lastElements w) ->
  children (dom (insertElement addElements conds w).2)
  = lastElements (insertElement addElements conds w).2
  /\ NoDup (lastElements (insertElement addElements conds w).2).
Proof.
  intros Hch Hnd Hadds Hfresh.
  destruct (mapM_cases (lastElements w) w) as [(items & Hm)|(e & He)].
  - rewrite (insertElement_unfold _ _ _ items) by assumption.
    now apply insertEach_lock_step.
  - rewrite (insertElement_mapM_throw conds _ _ e He). now split.
Qed.

Lemma sublist_inserted {A : Type} (l : list A) (a : A) (i : nat) :
  sublist l (take i l ++ a :: drop i l).
Proof.
  rewrite <- (take_drop i l) at 1.
  apply sublist_app; [reflexivity|]. now apply sublist_cons.
Qed.

Lemma insertEach_content (conds : list Condition) adds :
  forall items w w',
    Forall2 maps_to (lastElements w) items ->
    insertEach adds items conds w = (Normal tt, w') ->
    lastElements w' ≡ₚ lastElements w ++ adds
    /\ sublist (lastElements w) (lastElements w').
Proof.
  induction adds as [|a adds IH]; intros items w w' Hm Hrun.
  - simpl in Hrun. injection Hrun as <-. now rewrite app_nil_r.
  - destruct (itemObjectMapFunc a) as [x|e] eqn:Hx;
      [|rewrite (insertEach_throw a e) in Hrun by assumption; discriminate].
    rewrite (insertEach_cons a x) in Hrun
      by (assumption || now apply Forall2_length in Hm).
    cbv zeta in Hrun. set (i := insertion_index items x conds) in *.
    assert (Hnext : insertEach adds (take i items ++ x :: drop i items) conds
                      (inserted_at w a i) = (Normal tt, w')).
    { destruct (lastElements w !! i); [|assumption].
      destruct (bool_decide _); [assumption|discriminate]. }
    destruct (IH (take i items ++ x :: drop i items) (inserted_at w a i) w')
      as [Hp Hsub]; [now apply maps_to_inserted|assumption|].
    simpl in Hp, Hsub. split.
    + rewrite Hp, <- Permutation_middle, take_drop.
      now rewrite <- Permutation_middle.
    + etransitivity; [apply (sublist_inserted _ a i)|exact Hsub].
Qed.

(** X9: a call of [insertElement] that returns has added each new
    handle to the array once and has not reordered the handles that
    were there. *)
Theorem insertElement_content (conds : list Condition) (w w' : world)
  (addElements : list handle) :
  insertElement addElements conds w = (Normal tt, w') ->
  lastElements w' ≡ₚ lastElements w ++ addElements
  /\ sublist (lastElements w) (lastElements w')
  /\ length (lastElements w') = length (lastElements w) + length addElements.
Proof.
  intros Hrun.
  destruct (mapM_cases (lastElements w) w) as [(items & Hm)|(e & He)].
  - rewrite (insertElement_unfold _ _ _ items) in Hrun by assumption.
    destruct (insertEach_content conds _ _ _ _ Hm Hrun) as [Hp Hsub].
    repeat split; [assumption..|]. now rewrite Hp, length_app.
  - unfold insertElement, bind at 1, read_lastElements in Hrun.
    unfold bind at 1 in Hrun. rewrite He in Hrun. discriminate.
Qed.

Lemma mapM_throw (before after : list handle) (h : handle) (e : exn) (w : world) :
  Forall (fun h => exists o, maps_to h o) before ->
  itemObjectMapFunc h = Throw e ->
  mapM (fun element => lift (itemObjectMapFunc element)) (before ++ h :: after) w
  = (Throw e, w).
Proof.
  intros Hbefore Hh. induction Hbefore as [|b before [o Hb] _ IH]; simpl.
  - unfold bind at 1. unfold lift at 1. now rewrite Hh.
  - unfold bind at 1. unfold lift at 1. rewrite Hb.
    unfold bind at 1. now rewrite IH.
Qed.

(** X10: item objects are made for the handles of the array before
    anything is inserted: when the mapping function throws on one of
    them, the call ends with that exception and has changed neither the
    container nor the array, whatever was to be inserted. *)
Theorem insertElement_existing_throw (conds : list Condition) (w : world)
  (before after addElements : list handle) (h : handle) (e : exn) :
  lastElements w = before ++ h :: after ->
  Forall (fun h => exists o, maps_to h o) before ->
  itemObjectMapFunc h = Throw e ->
  insertElement addElements conds w = (Throw e, w).
Proof.
  intros Hels Hbefore Hh. apply insertElement_mapM_throw.
  rewrite Hels. now apply mapM_throw.
Qed.

(** X11: when the new element belongs in front of a handle of the
    array that is not a child of the container, the call ends with the
    container's NotFoundError and has changed neither the container nor
    the array. *)
Theorem insertElement_not_found (conds : list Condition) (w : world)
  (items : list itemObject) (addElement : handle) (x : itemObject)
  (rest : list handle) (r : handle) :
  Forall2 maps_to (lastElements w) items ->
  maps_to addElement x ->
  array_get (lastElements w) (_findPosition items x conds) = Some r ->
  r ∉ children (dom w) ->
  insertElement (addElement :: rest) conds w = (Throw NotFoundError, w).
Proof.
  intros Hm Hx Hget Hnot.
  rewrite (insertElement_unfold _ _ _ items) by assumption.
  rewrite (insertEach_cons addElement x) by (assumption || now apply Forall2_length in Hm).
  cbv zeta. rewrite findPosition_index in Hget. unfold array_get in Hget.
  case_decide as Hend; [discriminate|].
  rewrite (proj2 (Z.ltb_ge _ _)), Nat2Z.id in Hget by lia.
  rewrite Hget. now rewrite bool_decide_eq_false_2.
Qed.

Lemma length_remove_child (a : handle) (nodes : list handle) :
  NoDup nodes -> a ∈ nodes -> S (length (remove_child a nodes)) = length nodes.
Proof.
  unfold remove_child. induction 1 as [|h nodes Hh Hnd IH]; intros Ha;
    [now apply elem_of_nil in Ha|].
  apply elem_of_cons in Ha as [->|Ha].
  - rewrite filter_cons_False by tauto. simpl. f_equal.
    f_equal. apply filter_all, Forall_forall. intros y Hy ->. contradiction.
  - rewrite filter_cons_True by (intros ->; contradiction). simpl.
    now rewrite IH.
Qed.

Lemma length_insert_at_child (node ref : handle) (nodes : list handle) :
  length (insert_at_child node ref nodes) = S (length nodes).
Proof.
  induction nodes as [|h nodes IH]; simpl; [reflexivity|].
  case_decide; simpl; [reflexivity|now rewrite IH].
Qed.

Lemma length_place_child (node : handle) (ref : option handle) (nodes : list handle) :
  NoDup nodes -> node ∈ nodes -> length (place node ref nodes) = length nodes.
Proof.
  intros Hnd Hin. destruct ref as [r|]; simpl.
  - case_decide; [reflexivity|].
    rewrite length_insert_at_child. now apply length_remove_child.
  - rewrite length_app. simpl. rewrite Nat.add_1_r. now apply length_remove_child.
Qed.

(** X12: inserting a handle that the array already holds moves the
    element in the container and adds the handle to the array a second
    time, so the array is longer than the list of children from then
    on. *)
Theorem insertElement_again (conds : list Condition) (w : world)
  (items : list itemObject) (addElement : handle) (x : itemObject) :
  Forall2 maps_to (lastElements w) items ->
  maps_to addElement x ->
  children (dom w) = lastElements w ->
  NoDup (lastElements w) ->
  addElement ∈ lastElements w ->
  exists w',
    insertElement [addElement] conds w = (Normal tt, w')
    /\ length (children (dom w')) = length (children (dom w))
    /\ length (lastElements w') = S (length (lastElements w))
    /\ ~ NoDup (lastElements w').
Proof.
  intros Hm Hx Hch Hnd Hin.
  exists (inserted_at w addElement (insertion_index items x conds)).
  split; [apply (insertElement_one _ _ items _ x); try assumption;
          intros h; now rewrite Hch|].
  simpl. split; [|split].
  - apply length_place_child; rewrite Hch; assumption.
  - rewrite length_app. simpl. rewrite length_take, length_drop. lia.
  - intros Hdup.
    assert (Hp : take (insertion_index items x conds) (lastElements w)
                   ++ addElement :: drop (insertion_index items x conds) (lastElements w)
                 ≡ₚ addElement :: lastElements w).
    { rewrite <- Permutation_middle. now rewrite take_drop. }
    rewrite Hp in Hdup. apply NoDup_cons in Hdup as [Hnot _]. contradiction.
Qed.

(** ** More on resorting *)

Lemma tagFrom_throw (before after : list handle) (h : handle) (e : exn) (w : world) :
  Forall (fun h => exists o, maps_to h o) before ->
  itemObjectMapFunc h = Throw e ->
  forall idx, tagFrom idx (before ++ h :: after) w = (Throw e, w).
Proof.
  intros Hbefore Hh. induction Hbefore as [|b before [o Hb] _ IH]; intros idx; simpl.
  - unfold bind at 1. unfold lift at 1. now rewrite Hh.
  - unfold bind at 1. unfold lift at 1. rewrite Hb.
    unfold bind at 1. now rewrite IH.
Qed.

Lemma mapped_or_throws (elements : list handle) :
  (exists items, Forall2 maps_to elements items)
  \/ (exists before h after e,
        elements = before ++ h :: after
        /\ Forall (fun h => exists o, maps_to h o) before
        /\ itemObjectMapFunc h = Throw e).
Proof.
  induction elements as [|h elements IH].
  - left. exists []. constructor.
  - destruct (itemObjectMapFunc h) as [o|e] eqn:Hh.
    + destruct IH as [(items & Hm)|(before & h' & after & e & -> & Hb & Hh')].
      * left. exists (o :: items). now constructor.
      * right. exists (h :: before), h', after, e. repeat split; [|assumption].
        constructor; [now exists o|assumption].
    + right. exists [], h, elements, e. repeat split; [constructor|assumption].
Qed.

Lemma sortElements_tag_throw (conds : list Condition) (w : world) (e : exn) :
  tagFrom 0 (lastElements w) w = (Throw e, w) ->
  sortElements conds w = (Throw e, w).
Proof.
  intros He. unfold sortElements, bind at 1, read_lastElements.
  unfold bind at 1. now rewrite He.
Qed.

(** X13: [sortElements] never writes the array it is given, however
    the call ends. *)
Theorem sortElements_keeps_array (conds : list Condition) (w : world) :
  lastElements (sortElements conds w).2 = lastElements w.
Proof.
  destruct (mapped_or_throws (lastElements w))
    as [(items & Hm)|(before & h & after & e & Hels & Hb & Hh)].
  - now apply (sortElements_lastElements conds w items).
  - rewrite (sortElements_tag_throw conds w e); [reflexivity|].
    rewrite Hels. now apply tagFrom_throw.
Qed.

(** X14: item objects are made for all handles of the array before any
    element is moved: when the mapping function throws on one of them,
    the call ends with that exception and no call has reached the
    container. *)
Theorem sortElements_throw_untouched (conds : list Condition) (w : world)
  (before after : list handle) (h : handle) (e : exn) :
  lastElements w = before ++ h :: after ->
  Forall (fun h => exists o, maps_to h o) before ->
  itemObjectMapFunc h = Throw e ->
  sortElements conds w = (Throw e, w).
Proof.
  intros Hels Hb Hh. apply sortElements_tag_throw.
  rewrite Hels. now apply tagFrom_throw.
Qed.

(** X15: [sortElements] keeps the children of the container: none is
    added or lost, and the children that are not in the array keep
    their order among themselves. *)
Theorem sortElements_keeps_children (conds : list Condition) (w : world)
  (items : list itemObject) :
  Forall2 maps_to (lastElements w) items ->
  NoDup (lastElements w) ->
  NoDup (children (dom w)) ->
  (forall h, h ∈ lastElements w -> h ∈ children (dom w)) ->
  children (dom (sortElements conds w).2) ≡ₚ children (dom w)
  /\ filter (fun h => h ∉ lastElements w) (children (dom (sortElements conds w).2))
     = filter (fun h => h ∉ lastElements w) (children (dom w)).
Proof.
  intros Hm Hnd Hch Hin.
  assert (Hlen : length (lastElements w) = length items) by now apply Forall2_length in Hm.
  pose proof (targetElements_Permutation conds _ _ Hlen) as Hperm.
  rewrite (sortElements_run conds w items Hm). simpl.
  set (targets := targetElements conds (lastElements w) items) in *.
  assert (Hnd' : NoDup targets) by now rewrite Hperm.
  rewrite replay_tail by assumption.
  assert (Htail : forall h, h ∈ drop 1 targets -> h ∈ lastElements w).
  { intros h Hh. rewrite <- Hperm. exact (elem_of_sublist _ _ _ Hh (sublist_drop _ _)). }
  split.
  - rewrite <- (filter_app_complement (fun h => h ∉ drop 1 targets) (children (dom w))) at 2.
    apply Permutation_app_head. apply NoDup_Permutation.
    + eapply sublist_NoDup; [exact Hnd'|apply sublist_drop].
    + now apply NoDup_filter.
    + intros h. rewrite list_elem_of_filter. split.
      * intros Hh. split; [tauto|]. now apply Hin, Htail.
      * intros [Hh _]. destruct (decide (h ∈ drop 1 targets)); tauto.
  - rewrite filter_app, list_filter_filter.
    rewrite (filter_none _ (drop 1 targets))
      by (apply Forall_forall; intros h Hh Hn; now apply Hn, Htail).
    rewrite app_nil_r. apply list_filter_iff. intros h. split; [tauto|].
    intros Hn. split; [assumption|]. intros Hh. now apply Hn, Htail.
Qed.



Lemma Array_sort_sorted_id {A : Type} (c : A -> A -> Z) (l : list A) :
  Sorted (fun a b => (c a b <= 0)%Z) l -> Array_sort c l = l.
Proof.
  induction 1 as [|x l Hs IH Hhd]; [reflexivity|].
  simpl. rewrite IH. destruct Hhd as [|y l Hxy]; [reflexivity|].
  simpl. now rewrite (proj2 (Z.ltb_ge _ _)).
Qed.

Lemma Sorted_zip (conds : list Condition) (items : list itemObject) :
  Sorted (no_later conds) items ->
  forall elements : list handle,
    Sorted (fun p q : handle * itemObject => (_compare p.2 q.2 conds <= 0)%Z)
           (zip elements items).
Proof.
  induction 1 as [|x items Hs IH Hhd]; intros [|h elements]; simpl; try constructor.
  - apply IH.
  - destruct Hhd as [|y items Hxy]; destruct elements as [|h' elements];
      simpl; constructor. exact Hxy.
Qed.




(** ** Inserting one by one and sorting at once *)

Section OneByOne.
Context {A : Type}.
Variable c : A -> A -> Z.
Variable P : A -> Prop.
Hypothesis c_antisym : forall a b, c a b = (- c b a)%Z.
Hypothesis c_trans : forall a b d, P a -> P b -> P d ->
  (c a b <= 0)%Z -> (c b d <= 0)%Z -> (c a d <= 0)%Z.

Lemma insert_after_domain (x : A) (l : list A) :
  P x -> Forall P l -> Forall P (insert_after c x l).
Proof.
  intros Hx. induction 1 as [|e l He Hl IH]; simpl; [now repeat constructor|].
  destruct (c x e <? 0)%Z; repeat constructor; assumption.
Qed.

(** An earlier element sorted in and a later element inserted do not
    get in each other's way. *)
Lemma sort_insert_insert_after (x y : A) (s : list A) :
  P x -> P y -> Forall P s ->
  sort_insert c x (insert_after c y s) = insert_after c y (sort_insert c x s).
Proof.
  intros Hx Hy. induction 1 as [|e s He Hs IH]; simpl.
  - rewrite (c_antisym y x).
    destruct (0 <? c x y)%Z eqn:E1, (- c x y <? 0)%Z eqn:E2; (reflexivity || lia).
  - pose proof (c_trans y e x Hy He Hx) as T1.
    pose proof (c_trans x y e Hx Hy He) as T2.
    pose proof (c_trans x e y Hx He Hy) as T3.
    rewrite (c_antisym e x), (c_antisym e y) in *.
    destruct (c y e <? 0)%Z eqn:E1, (0 <? c x e)%Z eqn:E2; simpl;
      rewrite ?E1, ?E2; simpl.
    + rewrite (proj2 (Z.ltb_lt 0 (c x y))) by (rewrite (c_antisym y x) in *; lia).
      simpl. now rewrite ?E2.
    + rewrite (c_antisym y x).
      destruct (0 <? c x y)%Z eqn:E3, (- c x y <? 0)%Z eqn:E4; simpl;
        rewrite ?E1, ?E2; (reflexivity || lia).
    + now rewrite IH.
    + rewrite (proj2 (Z.ltb_ge (c y x) 0)) by (rewrite (c_antisym y x); lia).
      simpl. now rewrite ?E1.
Qed.

Lemma foldl_insert_after_sort_insert (x : A) (l : list A) :
  P x -> Forall P l ->
  forall s, Forall P s ->
    foldl (fun acc y => insert_after c y acc) (sort_insert c x s) l
    = sort_insert c x (foldl (fun acc y => insert_after c y acc) s l).
Proof.
  intros Hx. induction 1 as [|y l Hy Hl IH]; intros s Hs; simpl; [reflexivity|].
  rewrite <- sort_insert_insert_after by assumption.
  apply IH. now apply insert_after_domain.
Qed.

(** Inserting the elements one by one, each behind its ties, gives the
    order the stable sort gives. *)
Lemma foldl_insert_after_sort (l : list A) :
  Forall P l ->
  foldl (fun acc y => insert_after c y acc) [] l = Array_sort c l.
Proof.
  induction 1 as [|x l Hx Hl IH]; [reflexivity|].
  simpl. change [x] with (sort_insert c x []).
  rewrite foldl_insert_after_sort_insert by (assumption || constructor).
  now rewrite IH.
Qed.

End OneByOne.

Lemma insertion_index_first_below (items : list itemObject) (x : itemObject)
  (conds : list Condition) :
  insertion_index items x conds = first_below x conds items.
Proof.
  destruct conds as [|c conds]; [|reflexivity].
  simpl. induction items as [|e items IH]; simpl; [reflexivity|now rewrite <- IH].
Qed.

Lemma inserted_row (conds : list Condition) (rows : list (handle * itemObject))
  (a : handle) (x : itemObject) :
  take (first_below x conds (map snd rows)) rows
    ++ (a, x) :: drop (first_below x conds (map snd rows)) rows
  = insert_after (fun p q : handle * itemObject => _compare p.2 q.2 conds) (a, x) rows.
Proof.
  induction rows as [|e rows IH]; simpl; [reflexivity|].
  destruct (_compare x e.2 conds <? 0)%Z; simpl; [reflexivity|now rewrite IH].
Qed.

Lemma insertEach_rows (conds : list Condition) (adds : list handle)
  (xs : list itemObject) :
  Forall2 maps_to adds xs ->
  forall rows w w',
    lastElements w = map fst rows ->
    insertEach adds (map snd rows) conds w = (Normal tt, w') ->
    lastElements w'
    = map fst (foldl (fun acc p =>
                        insert_after (fun p q : handle * itemObject =>
                                        _compare p.2 q.2 conds) p acc)
                     rows (zip adds xs)).
Proof.
  induction 1 as [|a x adds xs Hx _ IH]; intros rows w w' Hels Hrun.
  - simpl in *. now injection Hrun as <-.
  - rewrite (insertEach_cons a x adds (map snd rows) conds w) in Hrun
      by (assumption || now rewrite Hels, !length_map).
    cbv zeta in Hrun. rewrite insertion_index_first_below in Hrun.
    set (i := first_below x conds (map snd rows)) in *.
    assert (Hnext : insertEach adds (take i (map snd rows) ++ x :: drop i (map snd rows))
                      conds (inserted_at w a i) = (Normal tt, w')).
    { destruct (lastElements w !! i); [|assumption].
      destruct (bool_decide _); [assumption|discriminate]. }
    pose proof (inserted_row conds rows a x) as Hrow. fold i in Hrow.
    simpl. rewrite <- Hrow. apply (IH _ (inserted_at w a i)).
    + simpl. rewrite Hels, map_app. simpl. now rewrite firstn_map, skipn_map.
    + rewrite map_app. simpl. now rewrite <- firstn_map, <- skipn_map.
Qed.

Lemma zip_rows_domain (elements : list handle) (items : list itemObject) :
  Forall (fun p : handle * itemObject => p.2 ∈ items) (zip elements items).
Proof.
  revert elements. induction items as [|o items IH]; intros [|h elements]; simpl;
    try constructor.
  - apply list_elem_of_here.
  - eapply Forall_impl; [apply IH|]. intros p Hp. now apply list_elem_of_further.
Qed.

(** The array after a call that returns, in an array without inversion
    over well-typed fields: the stable sort of the old handles followed
    by the new ones. *)
Lemma insertElement_array_sorted (conds : list Condition) (w w' : world)
  (items xs : list itemObject) (adds : list handle) :
  Forall2 maps_to (lastElements w) items ->
  Forall2 maps_to adds xs ->
  mirror_sorted conds (lastElements w) ->
  columns_typed conds (items ++ xs) ->
  insertElement adds conds w = (Normal tt, w') ->
  lastElements w' = reference_order conds (lastElements w ++ adds) (items ++ xs).
Proof.
  intros Hm Hadds Hsorted Hty Hrun.
  assert (Hlen : length (lastElements w) = length items) by now apply Forall2_length in Hm.
  pose proof (columns_typed_transitive _ _ Hty) as Htr.
  set (cmp := fun p q : handle * itemObject => _compare p.2 q.2 conds).
  set (dom_ := fun p : handle * itemObject => p.2 ∈ items ++ xs).
  assert (Hanti : forall p q, cmp p q = (- cmp q p)%Z)
    by (intros; apply compare_antisym).
  assert (Htrans : forall p q r, dom_ p -> dom_ q -> dom_ r ->
            (cmp p q <= 0)%Z -> (cmp q r <= 0)%Z -> (cmp p r <= 0)%Z)
    by (intros p q r; apply Htr).
  assert (Hrows : Forall dom_ (zip (lastElements w) items)).
  { eapply Forall_impl; [apply zip_rows_domain|].
    intros p Hp. apply elem_of_app. now left. }
  assert (Hnew : Forall dom_ (zip adds xs)).
  { eapply Forall_impl; [apply zip_rows_domain|].
    intros p Hp. apply elem_of_app. now right. }
  rewrite (insertElement_unfold _ _ _ items) in Hrun by assumption.
  assert (Hsnd : items = map snd (zip (lastElements w) items)).
  { change (map snd (zip (lastElements w) items))
      with (snd <$> zip (lastElements w) items). rewrite snd_zip; [reflexivity|lia]. }
  rewrite Hsnd in Hrun at 1.
  assert (Hfst : lastElements w = map fst (zip (lastElements w) items)).
  { change (map fst (zip (lastElements w) items))
      with (fst <$> zip (lastElements w) items). rewrite fst_zip; [reflexivity|lia]. }
  rewrite (insertEach_rows conds adds xs Hadds _ w w' Hfst Hrun).
  unfold reference_order. fold cmp. f_equal.
  rewrite <- (Array_sort_sorted_id cmp (zip (lastElements w) items)) at 1.
  2:{ apply Sorted_zip. now apply (mirror_sorted_items conds (lastElements w)). }
  rewrite <- (foldl_insert_after_sort cmp dom_ Hanti Htrans _ Hrows).
  rewrite <- foldl_app.
  rewrite (foldl_insert_after_sort cmp dom_ Hanti Htrans).
  - f_equal. symmetry. exact (zip_with_app pair _ _ _ _ Hlen).
  - apply Forall_app. now split.
Qed.

Lemma insertEach_returns (conds : list Condition) adds :
  forall items w,
    Forall2 maps_to (lastElements w) items ->
    children (dom w) = lastElements w ->
    NoDup (lastElements w) ->
    NoDup adds ->
    (forall h, h ∈ adds -> h ∉ lastElements w) ->
    Forall (fun h => exists o, maps_to h o) adds ->
    exists w', insertEach adds items conds w = (Normal tt, w').
Proof.
  induction adds as [|a adds IH]; intros items w Hm Hch Hnd Hadds Hfresh Hmapped;
    [now exists w|].
  apply NoDup_cons in Hadds as [Ha Hadds].
  inversion Hmapped as [|? ? [x Hx] Hrest]; subst.
  assert (Hnew : a ∉ lastElements w) by apply Hfresh, list_elem_of_here.
  rewrite (insertEach_cons a x) by (assumption || now apply Forall2_length in Hm).
  cbv zeta. set (i := insertion_index items x conds).
  assert (Hp : take i (lastElements w) ++ a :: drop i (lastElements w)
                 ≡ₚ a :: lastElements w).
  { rewrite <- Permutation_middle. now rewrite take_drop. }
  destruct (IH (take i items ++ x :: drop i items) (inserted_at w a i)) as [w' Hrun];
    simpl.
  - now apply maps_to_inserted.
  - rewrite Hch. now apply place_fresh.
  - rewrite Hp. now apply NoDup_cons.
  - assumption.
  - intros h Hh. rewrite Hp, not_elem_of_cons. split.
    + intros ->. contradiction.
    + apply Hfresh. now apply list_elem_of_further.
  - assumption.
  - exists w'. destruct (lastElements w !! i) as [r|] eqn:Hr; [|assumption].
    rewrite bool_decide_eq_true_2; [assumption|].
    rewrite Hch. eapply list_elem_of_lookup_2, Hr.
Qed.

(** X19: inserting one by one is sorting at once.  Into a container
    and an array that hold the same distinct handles in the same order,
    without inversion, [insertElement] of distinct new handles returns
    and leaves both in the order the reference stable sort gives on the
    old handles followed by the new ones, provided the compared fields
    are well typed. *)
Theorem insertElement_is_stable_sort (conds : list Condition) (w : world)
  (items xs : list itemObject) (addElements : list handle) :
  Forall2 maps_to (lastElements w) items ->
  Forall2 maps_to addElements xs ->
  children (dom w) = lastElements w ->
  NoDup (lastElements w) ->
  NoDup addElements ->
  (forall h, h ∈ addElements -> h ∉ lastElements w) ->
  mirror_sorted conds (lastElements w) ->
  columns_typed conds (items ++ xs) ->
  exists w',
    insertElement addElements conds w = (Normal tt, w')
    /\ lastElements w'
       = reference_order conds (lastElements w ++ addElements) (items ++ xs)
    /\ children (dom w') = lastElements w'.
Proof.
  intros Hm Hadds Hch Hnd Hnew Hfresh Hsorted Hty.
  destruct (insertEach_returns conds addElements items w) as [w' Hrun];
    try assumption.
  { apply Forall_forall. intros h Hh.
    apply list_elem_of_lookup in Hh as [i Hi].
    destruct (Forall2_lookup_l _ _ _ _ _ Hadds Hi) as (o & _ & Ho). now exists o. }
  rewrite <- (insertElement_unfold _ _ _ items Hm) in Hrun.
  exists w'. split; [assumption|]. split.
  - now apply (insertElement_array_sorted conds w w' items xs).
  - rewrite (insertElement_unfold _ _ _ items Hm) in Hrun.
    pose proof (insertEach_lock_step conds addElements items w Hm Hch Hnd Hnew Hfresh)
      as H.
    rewrite Hrun in H. apply H.
Qed.

End Engine.

(** ** Parsing the conditions *)

Lemma string_length_app (a b : string) :
  String.length (a ++ b)%string = String.length a + String.length b.
Proof. induction a as [|c a IH]; simpl; [reflexivity|now rewrite IH]. Qed.

Lemma length_toLowerCase (s : string) :
  String.length (JSString.toLowerCase s) = String.length s.
Proof. induction s as [|c s IH]; simpl; [reflexivity|now rewrite IH]. Qed.

Lemma toLowerCase_app (a b : string) :
  JSString.toLowerCase (a ++ b)%string
  = (JSString.toLowerCase a ++ JSString.toLowerCase b)%string.
Proof. induction a as [|c a IH]; simpl; [reflexivity|now rewrite IH]. Qed.

Lemma substring_all (s : string) : String.substring 0 (String.length s) s = s.
Proof. induction s as [|c s IH]; simpl; [reflexivity|now rewrite IH]. Qed.

Lemma substring_app_l (a b : string) :
  String.substring 0 (String.length a) (a ++ b)%string = a.
Proof.
  induction a as [|c a IH]; simpl; [now destruct b|now rewrite IH].
Qed.

Lemma substring_app_r (a b : string) :
  String.substring (String.length a) (String.length b) (a ++ b)%string = b.
Proof.
  induction a as [|c a IH]; simpl; [apply substring_all|exact IH].
Qed.

Lemma substring_split (n : nat) (s : string) :
  n <= String.length s ->
  s = (String.substring 0 n s ++ String.substring n (String.length s - n) s)%string.
Proof.
  revert n. induction s as [|c s IH]; intros [|n]; simpl; intros Hn;
    try lia; try reflexivity.
  - now rewrite substring_all.
  - f_equal. apply IH. lia.
Qed.

Lemma length_substring (n m : nat) (s : string) :
  n + m <= String.length s -> String.length (String.substring n m s) = m.
Proof.
  revert n m. induction s as [|c s IH]; intros [|n] [|m]; simpl; intros H;
    try lia; try reflexivity.
  - rewrite (IH 0 m); [reflexivity|lia].
  - rewrite (IH n 0); [reflexivity|lia].
  - rewrite (IH n (S m)); [reflexivity|lia].
Qed.

Lemma toLowerCase_substring (n m : nat) (s : string) :
  JSString.toLowerCase (String.substring n m s)
  = String.substring n m (JSString.toLowerCase s).
Proof.
  revert n m. induction s as [|c s IH]; intros [|n] [|m]; simpl;
    try reflexivity; now rewrite IH.
Qed.

Lemma js_substring_prefix (s : string) (n : nat) :
  n <= String.length s ->
  JSString.substring s 0 (Z.of_nat n) = String.substring 0 n s.
Proof.
  intros Hn. unfold JSString.substring.
  replace (Z.min (Z.max 0 0) (Z.of_nat (String.length s))) with 0%Z by lia.
  replace (Z.min (Z.max (Z.of_nat n) 0) (Z.of_nat (String.length s)))
    with (Z.of_nat n) by lia.
  replace (Z.min 0 (Z.of_nat n)) with 0%Z by lia.
  replace (Z.max 0 (Z.of_nat n) - 0)%Z with (Z.of_nat n) by lia.
  now rewrite Nat2Z.id.
Qed.

Lemma endsWith_app (a b : string) : JSString.endsWith (a ++ b)%string b = true.
Proof.
  unfold JSString.endsWith. rewrite string_length_app.
  rewrite (proj2 (Nat.leb_le _ _)) by lia.
  replace (String.length a + String.length b - String.length b) with (String.length a) by lia.
  rewrite substring_app_r. apply String.eqb_refl.
Qed.

Lemma endsWith_split (s suffix : string) :
  JSString.endsWith s suffix = true ->
  s = (String.substring 0 (String.length s - String.length suffix) s ++ suffix)%string.
Proof.
  unfold JSString.endsWith.
  destruct (String.length suffix <=? String.length s)%nat eqn:Hle; [|discriminate].
  apply Nat.leb_le in Hle. intros Heq. apply String.eqb_eq in Heq.
  pose proof (substring_split (String.length s - String.length suffix) s) as H.
  replace (String.length s - (String.length s - String.length suffix))
    with (String.length suffix) in H by lia.
  rewrite Heq in H. apply H. lia.
Qed.

(** A trimmed token that ends in the marker, in any case, gives a
    descending condition on what is in front of the marker. *)
Lemma parseSegment_desc (token body marker : string) :
  JSString.trim token = (body ++ marker)%string ->
  JSString.toLowerCase marker = "desc" ->
  parseSegment token = mkCondition (JSString.trim body) false.
Proof.
  intros Htok Hmark. unfold parseSegment. rewrite Htok.
  rewrite toLowerCase_app, Hmark, endsWith_app.
  assert (Hlen : String.length marker = 4).
  { rewrite <- length_toLowerCase, Hmark. reflexivity. }
  rewrite string_length_app, Hlen.
  replace (Z.of_nat (String.length body + 4) - 4)%Z
    with (Z.of_nat (String.length body)) by lia.
  rewrite js_substring_prefix by (rewrite string_length_app; lia).
  now rewrite substring_app_l.
Qed.

Lemma parseSegment_asc (token : string) :
  (forall body marker, JSString.trim token = (body ++ marker)%string ->
                       JSString.toLowerCase marker <> "desc") ->
  parseSegment token = mkCondition (JSString.trim token) true.
Proof.
  intros Hnone. unfold parseSegment.
  destruct (JSString.endsWith (JSString.toLowerCase (JSString.trim token)) "desc")
    eqn:Hends; [|reflexivity].
  exfalso.
  pose proof (endsWith_split _ _ Hends) as Hsplit.
  assert (Hle : 4 <= String.length (JSString.trim token)).
  { unfold JSString.endsWith in Hends. rewrite length_toLowerCase in Hends.
    destruct (String.length "desc" <=? String.length (JSString.trim token))%nat eqn:E;
      [|discriminate].
    now apply Nat.leb_le in E. }
  rewrite length_toLowerCase in Hsplit. simpl String.length in Hsplit.
  set (n := String.length (JSString.trim token) - 4) in *.
  apply (Hnone (String.substring 0 n (JSString.trim token))
               (String.substring n 4 (JSString.trim token))).
  - replace 4 with (String.length (JSString.trim token) - n) at 1 by lia.
    apply substring_split. lia.
  - rewrite toLowerCase_substring.
    unfold JSString.endsWith in Hends. rewrite length_toLowerCase in Hends.
    simpl String.length in Hends.
    rewrite (proj2 (Nat.leb_le _ _)) in Hends by assumption.
    now apply String.eqb_eq in Hends.
Qed.

Lemma parseSegments_map (segments : list string) (conditions : list Condition) :
  parseSegments segments conditions = conditions ++ map parseSegment segments.
Proof.
  revert conditions. induction segments as [|segment rest IH]; intros conditions; simpl.
  - now rewrite app_nil_r.
  - rewrite IH. unfold push. now rewrite <- app_assoc.
Qed.

Lemma split_concat (s : string) : String.concat "," (JSString.split "," s) = s.
Proof.
  induction s as [|c s IH]; [reflexivity|].
  pose proof (split_nonempty "," s) as Hne.
  cbn [JSString.split]. destruct (Ascii.eqb_spec c ","%char) as [->|Hc].
  - destruct (JSString.split "," s) as [|t ts]; [congruence|].
    change (String.concat "," ("" :: t :: ts))
      with ("" ++ "," ++ String.concat "," (t :: ts))%string.
    now rewrite IH.
  - destruct (JSString.split "," s) as [|t ts]; [congruence|].
    destruct ts as [|t' ts]; simpl in *; now rewrite <- IH.
Qed.

(** C6: [parseCondition] gives one condition per comma-separated
    token, in order; a trimmed token that ends in the marker DESC, in
    any case and with or without white space in front of it, gives
    a descending condition on the trimmed rest, and any other token an
    ascending condition on the trimmed token. *)
Theorem parseCondition_tokens (expression : string) :
  parseCondition expression = map parseSegment (tokens expression)
  /\ (expression <> "" -> String.concat "," (tokens expression) = expression)
  /\ (forall token body marker,
        JSString.trim token = (body ++ marker)%string ->
        JSString.toLowerCase marker = "desc" ->
        parseSegment token = mkCondition (JSString.trim body) false)
  /\ (forall token,
        (forall body marker, JSString.trim token = (body ++ marker)%string ->
                             JSString.toLowerCase marker <> "desc") ->
        parseSegment token = mkCondition (JSString.trim token) true)
  /\ parseCondition "field DESC" = [mkCondition "field" false]
  /\ parseCondition "field" = [mkCondition "field" true]
  /\ parseCondition "a DESC, b" = [mkCondition "a" false; mkCondition "b" true].
Proof.
  split.
  { unfold parseCondition, tokens. destruct (String.eqb expression ""); [reflexivity|].
    now rewrite parseSegments_map. }
  split.
  { intros Hne. unfold tokens. destruct (String.eqb_spec expression ""); [congruence|].
    apply split_concat. }
  split; [exact parseSegment_desc|]. split; [exact parseSegment_asc|].
  repeat split; reflexivity.
Qed.

(** ** The ordering of null and undefined *)

Lemma compareField_policy (StringToNumber : string -> number)
  (l r : itemObject) (path : string) :
  let lv := getPropertyValueByNamePath l path in
  let rv := getPropertyValueByNamePath r path in
  let result := _compareField StringToNumber l r path in
  (lv = VUndefined -> rv = VUndefined -> result = 0%Z)
  /\ (lv = VUndefined -> rv <> VUndefined -> result = (-1)%Z)
  /\ (lv <> VUndefined -> rv = VUndefined -> result = 1%Z)
  /\ (lv = VNull -> rv = VNull -> result = 0%Z)
  /\ (lv = VNull -> rv <> VUndefined -> rv <> VNull -> result = (-1)%Z)
  /\ (rv = VNull -> lv <> VUndefined -> lv <> VNull -> result = 1%Z).
Proof.
  cbv zeta. unfold _compareField.
  destruct (getPropertyValueByNamePath l path), (getPropertyValueByNamePath r path);
    simpl; repeat split; intros; congruence.
Qed.

(** C7: the field comparator decides on undefined and null before it
    compares: two undefined tie, one undefined goes first, then two
    null tie and one null goes first; so the values undefined, null, 1
    and 2, in whatever arrangement they start or arrive, are sorted
    into that order by an ascending condition and into 2, 1, null,
    undefined by a descending one, by [sortElements] and by
    [insertElement] alike. *)
Theorem compareField_null_ordering (StringToNumber : string -> number) :
  (forall (l r : itemObject) (path : string),
     let lv := getPropertyValueByNamePath l path in
     let rv := getPropertyValueByNamePath r path in
     let result := _compareField StringToNumber l r path in
     (lv = VUndefined -> rv = VUndefined -> result = 0%Z)
     /\ (lv = VUndefined -> rv <> VUndefined -> result = (-1)%Z)
     /\ (lv <> VUndefined -> rv = VUndefined -> result = 1%Z)
     /\ (lv = VNull -> rv = VNull -> result = 0%Z)
     /\ (lv = VNull -> rv <> VUndefined -> rv <> VNull -> result = (-1)%Z)
     /\ (rv = VNull -> lv <> VUndefined -> lv <> VNull -> result = 1%Z))
  /\ (forall elements : list handle,
        elements ≡ₚ [0; 1; 2; 3] ->
        resorted StringToNumber nullOrderingMap (parseCondition "v") elements
        = [0; 1; 2; 3]
        /\ resorted StringToNumber nullOrderingMap (parseCondition "v DESC") elements
           = [3; 2; 1; 0]
        /\ inserted StringToNumber nullOrderingMap (parseCondition "v") elements
           = [0; 1; 2; 3]
        /\ inserted StringToNumber nullOrderingMap (parseCondition "v DESC") elements
           = [3; 2; 1; 0]).
Proof.
  split; [exact (compareField_policy StringToNumber)|].
  intros elements Hp. symmetry in Hp. apply permutations_Permutation in Hp.
  assert (Hall : forallb
            (fun e =>
               bool_decide (resorted StringToNumber nullOrderingMap
                              (parseCondition "v") e = [0; 1; 2; 3])
               && bool_decide (resorted StringToNumber nullOrderingMap
                                 (parseCondition "v DESC") e = [3; 2; 1; 0])
               && bool_decide (inserted StringToNumber nullOrderingMap
                                 (parseCondition "v") e = [0; 1; 2; 3])
               && bool_decide (inserted StringToNumber nullOrderingMap
                                 (parseCondition "v DESC") e = [3; 2; 1; 0]))
            (permutations [0; 1; 2; 3]) = true) by (vm_compute; reflexivity).
  rewrite forallb_forall in Hall. apply list_elem_of_In, Hall in Hp.
  rewrite !andb_true_iff in Hp. destruct Hp as [[[H1 H2] H3] H4].
  split; [exact (bool_decide_eq_true_1 _ H1)|].
  split; [exact (bool_decide_eq_true_1 _ H2)|].
  split; [exact (bool_decide_eq_true_1 _ H3)|exact (bool_decide_eq_true_1 _ H4)].
Qed.

(** * The behaviour on the elements of the test suite *)

(** Every listed handle has the listed item object. *)
Ltac mapped := repeat (constructor; [reflexivity|]); constructor.

(** A decidable fact about closed data, by evaluation. *)
Ltac evaluated := apply (bool_decide_unpack _); vm_compute; exact I.

(** The four scenarios of the test suite, by the handles of the
    elements: [insertElement] by [id], by [id DESC] and by
    [checked, type DESC, id], and [sortElements] twice over the array
    the insertion by [type] left. *)
Example test_order_by_id :
  let run adds w :=
    (insertElement noNumericStrings testItemObjectMapFunc adds (parseCondition "id") w).2 in
  let w1 := run [0] emptyWorld in
  let w2 := run [3] w1 in
  let w3 := run [5] w2 in
  let w4 := run [2; 1; 4] w3 in
  children (dom w1) = [0] /\ children (dom w2) = [0; 3]
  /\ children (dom w3) = [5; 0; 3] /\ children (dom w4) = [2; 1; 5; 0; 3; 4].
Proof. cbv zeta. repeat split; reflexivity. Qed.

Example test_order_by_id_desc :
  let run adds w :=
    (insertElement noNumericStrings testItemObjectMapFunc adds
       (parseCondition "id DESC") w).2 in
  let w1 := run [0] emptyWorld in
  let w2 := run [3] w1 in
  let w3 := run [5] w2 in
  let w4 := run [2; 1; 4] w3 in
  children (dom w1) = [0] /\ children (dom w2) = [3; 0]
  /\ children (dom w3) = [3; 0; 5] /\ children (dom w4) = [4; 3; 0; 5; 1; 2].
Proof. cbv zeta. repeat split; reflexivity. Qed.

Example test_order_by_checked_type_id :
  inserted noNumericStrings testItemObjectMapFunc
    (parseCondition "checked, type DESC, id") [0; 1; 2; 3; 4; 5]
  = [2; 0; 4; 1; 5; 3].
Proof. reflexivity. Qed.

Example test_sort_by_id_desc_then_type_id :
  let w :=
    (insertElement noNumericStrings testItemObjectMapFunc [0; 1; 2; 3; 4; 5]
       (parseCondition "type") emptyWorld).2 in
  let w1 :=
    (sortElements noNumericStrings testItemObjectMapFunc (parseCondition "id DESC") w).2 in
  let w2 :=
    (sortElements noNumericStrings testItemObjectMapFunc (parseCondition "type, id") w1).2 in
  children (dom w) = [3; 4; 5; 0; 1; 2]
  /\ children (dom w1) = [4; 3; 0; 5; 1; 2]
  /\ children (dom w2) = [5; 3; 4; 2; 1; 0].
Proof. cbv zeta. repeat split; reflexivity. Qed.

Lemma insertElement_keeps_sorted_witness :
  let conds := parseCondition "id" in
  let w :=
    (insertElement noNumericStrings testItemObjectMapFunc [2; 1; 4] conds
       (insertElement noNumericStrings testItemObjectMapFunc [0] conds emptyWorld).2).2 in
  lastElements w = [2; 1; 0; 4]
  /\ Forall (fun h => exists o, maps_to testItemObjectMapFunc h o) (lastElements w)
  /\ mirror_sorted noNumericStrings testItemObjectMapFunc conds (lastElements w).
Proof.
  cbv zeta. split; [reflexivity|].
  apply (insertElement_keeps_sorted noNumericStrings testItemObjectMapFunc).
  apply reached_insert, reached_insert, reached_empty. reflexivity.
Defined.

Lemma insertElement_first_below_witness :
  exists (i : nat) (w' : world),
    i <= 2
    /\ insertElement noNumericStrings testItemObjectMapFunc [5] (parseCondition "id")
         (worldOf [2; 0]) = (Normal tt, w')
    /\ lastElements w' = take i [2; 0] ++ 5 :: drop i [2; 0].
Proof.
  destruct (insertElement_first_below noNumericStrings testItemObjectMapFunc
              (parseCondition "id") (worldOf [2; 0])
              [itemOf 1 "foo" false; itemOf 5 "foo" false] 5 (itemOf 3 "bar" true))
    as [(i & w' & Hi & _ & _ & Hrun & Hels & _) _].
  - mapped.
  - reflexivity.
  - intros h Hh. exact Hh.
  - exists i, w'. split; [exact Hi|]. split; [exact Hrun|exact Hels].
Defined.

Lemma insertElement_throw_keeps_earlier_witness :
  insertElement noNumericStrings testItemObjectMapFunc [0; 3; 7; 5]
    (parseCondition "id") emptyWorld
  = (Throw (MapFuncError (VString "no such element")),
     mkWorld (mkContainer [0; 3] [(0, None); (3, None)]) [0; 3]).
Proof.
  apply (insertElement_throw_keeps_earlier noNumericStrings testItemObjectMapFunc
           (parseCondition "id") emptyWorld _ [0; 3] [5] 7).
  - reflexivity.
  - reflexivity.
Defined.

Lemma insertElement_after_ties_witness :
  exists (i : nat) (w' : world),
    insertElement noNumericStrings testItemObjectMapFunc [1]
      [mkCondition "type" true] (worldOf [3; 0]) = (Normal tt, w')
    /\ lastElements w' = take i [3; 0] ++ 1 :: drop i [3; 0]
    /\ 1 < i.
Proof.
  destruct (insertElement_after_ties noNumericStrings testItemObjectMapFunc
              [mkCondition "type" true] (worldOf [3; 0])
              [itemOf 6 "bar" true; itemOf 5 "foo" false] 1 (itemOf 2 "foo" true))
    as (i & w' & Hrun & Hels & Hties).
  - mapped.
  - reflexivity.
  - intros h Hh. exact Hh.
  - apply (mirror_sorted_check noNumericStrings testItemObjectMapFunc _ _
             [itemOf 6 "bar" true; itemOf 5 "foo" false]).
    + mapped.
    + reflexivity.
  - constructor; [|constructor]. exists KString. intros o Ho.
    rewrite !elem_of_cons, elem_of_nil in Ho.
    destruct Ho as [->|[->|[->|[]]]]; reflexivity.
  - exists i, w'. split; [exact Hrun|]. split; [exact Hels|].
    apply (Hties 1 (itemOf 5 "foo" false)); reflexivity.
Defined.



Lemma compareField_preorder_witness :
  let a := itemOf 1 "foo" false in
  let b := [("id", VNull)] in
  let c := itemOf 5 "foo" false in
  _compareField noNumericStrings b a "id" = (- _compareField noNumericStrings a b "id")%Z
  /\ ((_compareField noNumericStrings b a "id" <= 0)%Z ->
      (_compareField noNumericStrings a c "id" <= 0)%Z ->
      (_compareField noNumericStrings b c "id" <= 0)%Z).
Proof.
  cbv zeta.
  apply (compareField_preorder noNumericStrings [("id", VNull)]
           (itemOf 1 "foo" false) (itemOf 5 "foo" false) "id"); reflexivity.
Defined.

(** ** Where the specification says more than the code does *)


(** C8 as stated fails: numbers are a supported type, and NaN ties
    with both 1 and 0. *)
Lemma compareField_NaN_not_transitive :
  ~ (forall (StringToNumber : string -> number) (a b c : itemObject) (path : string),
       same_supported_type (getPropertyValueByNamePath a path)
                           (getPropertyValueByNamePath b path) = true ->
       same_supported_type (getPropertyValueByNamePath b path)
                           (getPropertyValueByNamePath c path) = true ->
       same_supported_type (getPropertyValueByNamePath a path)
                           (getPropertyValueByNamePath c path) = true ->
       (_compareField StringToNumber a b path <= 0)%Z ->
       (_compareField StringToNumber b c path <= 0)%Z ->
       (_compareField StringToNumber a c path <= 0)%Z).
Proof.
  intros H.
  assert (Hc : (_compareField noNumericStrings [("v", VNumber (Num 1))]
                  [("v", VNumber (Num 0))] "v" <= 0)%Z).
  { apply (H noNumericStrings [("v", VNumber (Num 1))] [("v", VNumber NaN)]
             [("v", VNumber (Num 0))] "v");
      try reflexivity; vm_compute; discriminate. }
  vm_compute in Hc. apply Hc. reflexivity.
Qed.

(** C10 as stated fails: the array 2, NaN has no inversion, the new
    item 1 ties with NaN, and it is placed in front of both. *)
Lemma insertElement_tie_with_NaN :
  let conds := [mkCondition "v" true] in
  let existing := [[("v", VNumber (Num 2))]; [("v", VNumber NaN)]] in
  let new := [("v", VNumber (Num 1))] in
  Forall2 (maps_to nanMap) (lastElements (worldOf [0; 1])) existing
  /\ maps_to nanMap 2 new
  /\ mirror_sorted noNumericStrings nanMap conds (lastElements (worldOf [0; 1]))
  /\ existing !! 1 = Some [("v", VNumber NaN)]
  /\ _compare noNumericStrings new [("v", VNumber NaN)] conds = 0%Z
  /\ insertElement noNumericStrings nanMap [2] conds (worldOf [0; 1])
     = (Normal tt, mkWorld (mkContainer [2; 0; 1] [(2, Some 0)]) [2; 0; 1]).
Proof.
  cbv zeta. split; [mapped|]. split; [reflexivity|].
  split; [|repeat split; reflexivity].
  apply (mirror_sorted_check noNumericStrings nanMap _ _
           [[("v", VNumber (Num 2))]; [("v", VNumber NaN)]]).
  - mapped.
  - reflexivity.
Qed.

(** C5: [sortElements] reorders the children and leaves the array as it
    was, so the array no longer follows the container, it has an
    inversion under the conditions just sorted by, and the next
    [insertElement] places by the stale order: the element with id 5
    lands between those with ids 2 and 1 under [id DESC]. *)
Theorem sortElements_leaves_array_stale :
  let conds := parseCondition "id DESC" in
  let w := worldOf [2; 1] in
  let w' := mkWorld (mkContainer [1; 2] [(2, None)]) [2; 1] in
  sortElements noNumericStrings testItemObjectMapFunc conds w = (Normal tt, w')
  /\ lastElements w' <> children (dom w')
  /\ ~ mirror_sorted noNumericStrings testItemObjectMapFunc conds (lastElements w')
  /\ children (dom (insertElement noNumericStrings testItemObjectMapFunc [0] conds w').2)
     = [1; 0; 2].
Proof.
  cbv zeta. split; [reflexivity|]. split; [discriminate|]. split; [|reflexivity].
  apply (mirror_unsorted_check noNumericStrings testItemObjectMapFunc _ _
           [itemOf 1 "foo" false; itemOf 2 "foo" true]).
  - mapped.
  - reflexivity.
Qed.

(** * Further facts on parsing *)

Lemma length_split (sep : ascii) (s : string) :
  length (JSString.split sep s) = S (occurrences sep s).
Proof.
  induction s as [|c s IH]; [reflexivity|].
  cbn [JSString.split occurrences]. destruct (Ascii.eqb c sep); simpl.
  - now rewrite IH.
  - destruct (JSString.split sep s); simpl in *; lia.
Qed.

(** X20: a non-empty expression gives one condition more than it has
    commas, so at least one; only the empty expression gives none. *)
Theorem parseCondition_length (expression : string) :
  (expression <> "" ->
   length (parseCondition expression) = S (occurrences "," expression))
  /\ (parseCondition expression = [] <-> expression = "").
Proof.
  unfold parseCondition. destruct (String.eqb_spec expression "") as [->|Hne].
  - split; [congruence|]. split; reflexivity.
  - rewrite parseSegments_map. simpl. split.
    + intros _. now rewrite length_map, length_split.
    + split; [|congruence]. intros Hnil.
      apply (f_equal length) in Hnil. rewrite length_map, length_split in Hnil.
      discriminate.
Qed.

Lemma trimStart_startsClean (s : string) : startsClean (JSString.trimStart s) = true.
Proof.
  induction s as [|c s IH]; [reflexivity|]. simpl.
  destruct (JSString.isWhiteSpace c) eqn:E; [exact IH|]. simpl. now rewrite E.
Qed.

Lemma startsClean_trimStart (s : string) :
  startsClean s = true -> JSString.trimStart s = s.
Proof.
  destruct s as [|c s]; [reflexivity|]. simpl.
  now destruct (JSString.isWhiteSpace c).
Qed.

Lemma startsClean_trimEnd (s : string) :
  startsClean s = true -> startsClean (JSString.trimEnd s) = true.
Proof.
  destruct s as [|c s]; [reflexivity|]. simpl.
  destruct (JSString.isWhiteSpace c) eqn:E; [discriminate|]. intros _.
  destruct (JSString.trimEnd s); simpl; now rewrite E.
Qed.

Lemma trimEnd_app (a b : string) :
  JSString.trimEnd (a ++ b)%string
  = match JSString.trimEnd b with
    | EmptyString => JSString.trimEnd a
    | String d r => (a ++ String d r)%string
    end.
Proof.
  induction a as [|c a IH]; simpl.
  - now destruct (JSString.trimEnd b).
  - rewrite IH. destruct (JSString.trimEnd b) as [|d r]; [reflexivity|].
    now destruct a.
Qed.

Lemma trimEnd_idem (s : string) : JSString.trimEnd (JSString.trimEnd s) = JSString.trimEnd s.
Proof.
  induction s as [|c s IH]; [reflexivity|]. simpl.
  destruct (JSString.trimEnd s) as [|d r] eqn:E.
  - destruct (JSString.isWhiteSpace c) eqn:Ec; simpl; [reflexivity|now rewrite Ec].
  - simpl in *. now rewrite IH.
Qed.

Lemma trim_idem (s : string) : JSString.trim (JSString.trim s) = JSString.trim s.
Proof.
  unfold JSString.trim.
  rewrite (startsClean_trimStart (JSString.trimEnd _))
    by apply startsClean_trimEnd, trimStart_startsClean.
  apply trimEnd_idem.
Qed.

Lemma parseSegment_trimmed (segment : string) :
  JSString.trim (fieldName (parseSegment segment)) = fieldName (parseSegment segment).
Proof.
  unfold parseSegment.
  destruct (JSString.endsWith _ _); simpl; apply trim_idem.
Qed.

(** X21: no field name [parseCondition] gives has white space at
    either end: trimming it changes nothing. *)
Theorem parseCondition_names_trimmed (expression : string) :
  Forall (fun c => JSString.trim (fieldName c) = fieldName c)
         (parseCondition expression).
Proof.
  unfold parseCondition. destruct (String.eqb expression ""); [constructor|].
  rewrite parseSegments_map. simpl. apply Forall_forall. intros c Hc.
  change (c ∈ parseSegment <$> JSString.split "," expression) in Hc.
  apply list_elem_of_fmap in Hc as (segment & -> & _).
  apply parseSegment_trimmed.
Qed.

Lemma occurrences_app (c : ascii) (a b : string) :
  occurrences c (a ++ b)%string = occurrences c a + occurrences c b.
Proof. induction a as [|d a IH]; simpl; [reflexivity|rewrite IH; lia]. Qed.

Lemma split_none (sep : ascii) (s : string) :
  occurrences sep s = 0 -> JSString.split sep s = [s].
Proof.
  induction s as [|c s IH]; [reflexivity|]. simpl.
  destruct (Ascii.eqb c sep); [discriminate|]. simpl. intros H.
  now rewrite IH.
Qed.

Lemma split_app (sep : ascii) (a b : string) :
  occurrences sep a = 0 ->
  JSString.split sep (a ++ String sep b)%string = a :: JSString.split sep b.
Proof.
  induction a as [|c a IH]; simpl.
  - now rewrite Ascii.eqb_refl.
  - destruct (Ascii.eqb c sep); [discriminate|]. simpl. intros H.
    now rewrite IH.
Qed.

Lemma split_concat_comma_space (s : string) (ss : list string) :
  Forall (fun t => occurrences "," t = 0) (s :: ss) ->
  JSString.split "," (String.concat ", " (s :: ss)) = s :: map (String " ") ss.
Proof.
  revert s. induction ss as [|t ss IH]; intros s Hall.
  - simpl. apply split_none. now inversion Hall.
  - inversion Hall as [|? ? Hs Hrest]; subst.
    inversion Hrest as [|? ? Ht Hss]; subst.
    change (String.concat ", " (s :: t :: ss))
      with (s ++ String "," (String " " (String.concat ", " (t :: ss))))%string.
    rewrite split_app by assumption. f_equal.
    assert (Hshift : String " " (String.concat ", " (t :: ss))
                     = String.concat ", " (String " " t :: ss)).
    { destruct ss; reflexivity. }
    rewrite Hshift, IH; [reflexivity|].
    constructor; [exact Ht|assumption].
Qed.

Lemma parseSegment_leading_space (s : string) :
  parseSegment (String " " s) = parseSegment s.
Proof. reflexivity. Qed.

Lemma string_app_assoc (a b c : string) :
  ((a ++ b) ++ c)%string = (a ++ (b ++ c))%string.
Proof. induction a as [|d a IH]; simpl; [reflexivity|now rewrite IH]. Qed.

Lemma startsClean_app (a b : string) :
  a <> "" -> startsClean a = true -> startsClean (a ++ b)%string = true.
Proof. destruct a; [congruence|]. intros _ H. exact H. Qed.

Lemma parseSegment_format (c : Condition) :
  writable c -> parseSegment (formatCondition c) = c.
Proof.
  destruct c as [name asc]. unfold writable, plainName, formatCondition. simpl.
  intros [(Hne & Hcomma & Hclean & Hend) Hmark]. destruct asc.
  - unfold parseSegment, JSString.trim.
    rewrite (startsClean_trimStart name Hclean), Hend, (Hmark eq_refl). reflexivity.
  - rewrite (parseSegment_desc (name ++ " DESC") (name ++ " ") "DESC").
    + unfold JSString.trim.
      rewrite startsClean_trimStart by now apply startsClean_app.
      rewrite trimEnd_app. simpl. now rewrite Hend.
    + unfold JSString.trim.
      rewrite startsClean_trimStart by now apply startsClean_app.
      rewrite trimEnd_app. simpl. now rewrite string_app_assoc.
    + reflexivity.
Qed.

Lemma formatCondition_no_comma (c : Condition) :
  writable c -> occurrences "," (formatCondition c) = 0.
Proof.
  intros [(_ & Hcomma & _) _]. unfold formatCondition.
  destruct (isAscendingOrder c); [assumption|].
  rewrite occurrences_app, Hcomma. reflexivity.
Qed.

Lemma formatCondition_nonempty (c : Condition) :
  writable c -> formatCondition c <> "".
Proof.
  intros [(Hne & _) _]. unfold formatCondition.
  destruct (isAscendingOrder c); [assumption|].
  destruct (fieldName c); [congruence|discriminate].
Qed.

(** X22: conditions written in the form the comment of
    [parseCondition] documents are read back as they were: parsing is a
    left inverse of writing, on plain names. *)
Theorem parseCondition_formatConditions (conds : list Condition) :
  Forall writable conds ->
  parseCondition (formatConditions conds) = conds.
Proof.
  intros Hall. destruct conds as [|c conds]; [reflexivity|].
  inversion Hall as [|? ? Hc Hrest]; subst.
  unfold parseCondition, formatConditions.
  assert (Hne : String.concat ", " (map formatCondition (c :: conds)) <> "").
  { simpl. pose proof (formatCondition_nonempty c Hc) as H.
    destruct (map formatCondition conds); [assumption|].
    destruct (formatCondition c); [congruence|discriminate]. }
  destruct (String.eqb_spec (String.concat ", " (map formatCondition (c :: conds))) "")
    as [|_]; [contradiction|].
  rewrite parseSegments_map. change ([] ++ ?l) with l.
  change (map formatCondition (c :: conds))
    with (formatCondition c :: map formatCondition conds).
  rewrite (split_concat_comma_space (formatCondition c) (map formatCondition conds)).
  - cbn [map]. rewrite (parseSegment_format c Hc). f_equal.
    rewrite !map_map. clear Hall Hne Hc.
    induction Hrest as [|d conds Hd _ IH]; [reflexivity|].
    simpl. now rewrite parseSegment_leading_space, (parseSegment_format d Hd), IH.
  - change (Forall (fun t => occurrences "," t = 0) (map formatCondition (c :: conds))).
    apply Forall_forall. intros t Ht.
    change (t ∈ formatCondition <$> c :: conds) in Ht.
    apply list_elem_of_fmap in Ht as (d & -> & Hd).
    apply formatCondition_no_comma. rewrite Forall_forall in Hall. now apply Hall.
Qed.

(** ** The further facts on the elements of the test suite *)

(** Every item of a closed list holds a value of kind [k] in a column. *)
Ltac column k :=
  exists k; intros o Ho;
  repeat (apply elem_of_cons in Ho as [->|Ho]; [reflexivity|]);
  now apply elem_of_nil in Ho.

Lemma compare_transitive_typed_witness :
  let conds := [mkCondition "type" true; mkCondition "id" false] in
  let a := itemOf 9 "bar" false in
  let b := itemOf 6 "bar" true in
  let c := itemOf 5 "foo" false in
  (_compare noNumericStrings a b conds < 0)%Z
  /\ (_compare noNumericStrings b c conds <= 0)%Z
  /\ (_compare noNumericStrings a c conds < 0)%Z.
Proof.
  cbv zeta.
  destruct (compare_transitive_typed noNumericStrings
              [mkCondition "type" true; mkCondition "id" false]
              [itemOf 9 "bar" false; itemOf 6 "bar" true; itemOf 5 "foo" false]
              (itemOf 9 "bar" false) (itemOf 6 "bar" true) (itemOf 5 "foo" false))
    as (_ & Hstrict & _).
  - constructor; [column KString|]. constructor; [column KNumber|]. constructor.
  - apply list_elem_of_here.
  - apply list_elem_of_further, list_elem_of_here.
  - apply list_elem_of_further, list_elem_of_further, list_elem_of_here.
  - split; [reflexivity|]. split; [apply Z.leb_le; reflexivity|].
    apply Hstrict; [reflexivity|apply Z.leb_le; reflexivity].
Defined.

Lemma compareField_tie_iff_equal_witness :
  _compareField noNumericStrings (itemOf 5 "foo" false) (itemOf 5 "bar" true) "id" = 0%Z
  <-> getPropertyValueByNamePath (itemOf 5 "foo" false) "id"
      = getPropertyValueByNamePath (itemOf 5 "bar" true) "id".
Proof.
  apply (compareField_tie_iff_equal noNumericStrings KNumber); reflexivity.
Defined.

Lemma findPosition_partition_witness :
  let conds := [mkCondition "id" true] in
  let items := [itemOf 1 "foo" false; itemOf 5 "foo" false; itemOf 9 "bar" false] in
  let x := itemOf 3 "bar" true in
  let p := _findPosition noNumericStrings items x conds in
  (p = (-1)%Z \/ (0 <= p < Z.of_nat (length items))%Z)
  /\ (forall j e, items !! j = Some e -> p = (-1)%Z \/ (Z.of_nat j < p)%Z ->
                  (0 <= _compare noNumericStrings x e conds)%Z)
  /\ (forall j e, items !! j = Some e -> (0 <= p <= Z.of_nat j)%Z ->
                  (_compare noNumericStrings x e conds < 0)%Z).
Proof.
  apply (findPosition_partition noNumericStrings [mkCondition "id" true]
           [itemOf 1 "foo" false; itemOf 5 "foo" false; itemOf 9 "bar" false]
           (itemOf 3 "bar" true)).
  - intros i a b Ha Hb. destruct i as [|[|i]]; simpl in Ha, Hb.
    + injection Ha as <-. injection Hb as <-. apply Z.leb_le. reflexivity.
    + injection Ha as <-. injection Hb as <-. apply Z.leb_le. reflexivity.
    + destruct i; discriminate Hb.
  - constructor; [column KNumber|]. constructor.
Defined.

Lemma insertElement_lock_step_witness :
  let w' :=
    (insertElement noNumericStrings testItemObjectMapFunc [5; 7; 1]
       (parseCondition "id") (worldOf [2; 0])).2 in
  children (dom w') = lastElements w' /\ NoDup (lastElements w').
Proof.
  cbv zeta.
  apply (insertElement_lock_step noNumericStrings testItemObjectMapFunc
           (parseCondition "id") (worldOf [2; 0]) [5; 7; 1]).
  - reflexivity.
  - evaluated.
  - evaluated.
  - apply Forall_forall. evaluated.
Defined.

Lemma insertElement_content_witness :
  let w' :=
    (insertElement noNumericStrings testItemObjectMapFunc [2; 1; 4]
       (parseCondition "id") (worldOf [5; 0])).2 in
  lastElements w' ≡ₚ [5; 0] ++ [2; 1; 4]
  /\ sublist [5; 0] (lastElements w')
  /\ length (lastElements w') = 2 + 3.
Proof.
  cbv zeta.
  apply (insertElement_content noNumericStrings testItemObjectMapFunc
           (parseCondition "id") (worldOf [5; 0]) _ [2; 1; 4]).
  reflexivity.
Defined.

Lemma insertElement_existing_throw_witness :
  let w := mkWorld (mkContainer [0; 7; 3] []) [0; 7; 3] in
  insertElement noNumericStrings testItemObjectMapFunc [5] (parseCondition "id") w
  = (Throw (MapFuncError (VString "no such element")), w).
Proof.
  cbv zeta.
  apply (insertElement_existing_throw noNumericStrings testItemObjectMapFunc
           (parseCondition "id") (mkWorld (mkContainer [0; 7; 3] []) [0; 7; 3])
           [0] [3] [5] 7).
  - reflexivity.
  - constructor; [|constructor]. eexists. reflexivity.
  - reflexivity.
Defined.

Lemma insertElement_not_found_witness :
  let w := mkWorld (mkContainer [3] []) [0; 3] in
  insertElement noNumericStrings testItemObjectMapFunc [5; 1] (parseCondition "id") w
  = (Throw NotFoundError, w).
Proof.
  cbv zeta.
  apply (insertElement_not_found noNumericStrings testItemObjectMapFunc
           (parseCondition "id") (mkWorld (mkContainer [3] []) [0; 3])
           [itemOf 5 "foo" false; itemOf 6 "bar" true] 5 (itemOf 3 "bar" true) [1] 0).
  - mapped.
  - reflexivity.
  - reflexivity.
  - evaluated.
Defined.

Lemma insertElement_again_witness :
  exists w',
    insertElement noNumericStrings testItemObjectMapFunc [0] (parseCondition "id")
      (worldOf [2; 0]) = (Normal tt, w')
    /\ length (children (dom w')) = 2
    /\ length (lastElements w') = 3
    /\ ~ NoDup (lastElements w').
Proof.
  apply (insertElement_again noNumericStrings testItemObjectMapFunc
           (parseCondition "id") (worldOf [2; 0])
           [itemOf 1 "foo" false; itemOf 5 "foo" false] 0 (itemOf 5 "foo" false)).
  - mapped.
  - reflexivity.
  - reflexivity.
  - evaluated.
  - evaluated.
Defined.

Lemma sortElements_throw_untouched_witness :
  let w := mkWorld (mkContainer [3; 7; 0] []) [0; 3; 7] in
  sortElements noNumericStrings testItemObjectMapFunc (parseCondition "id DESC") w
  = (Throw (MapFuncError (VString "no such element")), w).
Proof.
  cbv zeta.
  apply (sortElements_throw_untouched noNumericStrings testItemObjectMapFunc
           (parseCondition "id DESC") (mkWorld (mkContainer [3; 7; 0] []) [0; 3; 7])
           [0; 3] [] 7).
  - reflexivity.
  - constructor; [eexists; reflexivity|]. constructor; [eexists; reflexivity|]. constructor.
  - reflexivity.
Defined.

Lemma sortElements_keeps_children_witness :
  let w := mkWorld (mkContainer [7; 0; 8; 3; 5] []) [5; 0; 3] in
  let w' :=
    (sortElements noNumericStrings testItemObjectMapFunc (parseCondition "id DESC") w).2 in
  children (dom w') ≡ₚ [7; 0; 8; 3; 5]
  /\ filter (fun h => h ∉ [5; 0; 3]) (children (dom w')) = [7; 8].
Proof.
  cbv zeta.
  apply (sortElements_keeps_children noNumericStrings testItemObjectMapFunc
           (parseCondition "id DESC") (mkWorld (mkContainer [7; 0; 8; 3; 5] []) [5; 0; 3])
           [itemOf 3 "bar" true; itemOf 5 "foo" false; itemOf 6 "bar" true]).
  - mapped.
  - evaluated.
  - evaluated.
  - apply Forall_forall. evaluated.
Defined.




Lemma insertElement_is_stable_sort_witness :
  let conds := parseCondition "type, id DESC" in
  exists w',
    insertElement noNumericStrings testItemObjectMapFunc [3; 5; 1] conds (worldOf [0; 2])
    = (Normal tt, w')
    /\ lastElements w'
       = reference_order noNumericStrings conds ([0; 2] ++ [3; 5; 1])
           ([itemOf 5 "foo" false; itemOf 1 "foo" false]
            ++ [itemOf 6 "bar" true; itemOf 3 "bar" true; itemOf 2 "foo" true])
    /\ children (dom w') = lastElements w'.
Proof.
  cbv zeta.
  apply (insertElement_is_stable_sort noNumericStrings testItemObjectMapFunc
           (parseCondition "type, id DESC") (worldOf [0; 2])
           [itemOf 5 "foo" false; itemOf 1 "foo" false]
           [itemOf 6 "bar" true; itemOf 3 "bar" true; itemOf 2 "foo" true] [3; 5; 1]).
  - mapped.
  - mapped.
  - reflexivity.
  - evaluated.
  - evaluated.
  - apply Forall_forall. evaluated.
  - apply (mirror_sorted_check noNumericStrings testItemObjectMapFunc _ _
             [itemOf 5 "foo" false; itemOf 1 "foo" false]).
    + mapped.
    + reflexivity.
  - constructor; [column KString|]. constructor; [column KNumber|]. constructor.
Defined.

Lemma parseCondition_formatConditions_witness :
  parseCondition "meta.flag, creationTime DESC, name"
  = [mkCondition "meta.flag" true; mkCondition "creationTime" false;
     mkCondition "name" true].
Proof.
  apply (parseCondition_formatConditions
           [mkCondition "meta.flag" true; mkCondition "creationTime" false;
            mkCondition "name" true]).
  repeat (constructor;
          [split; [repeat split; try reflexivity; discriminate|intros _; reflexivity]|]).
  constructor.
Defined.
